(** * Provisioning core of juju: rootfs storage provider and MAAS constraints

    A shallow embedding of two Go source files of the repository,

    - the [provider] package's rootfs filesystem source
      ([CreateFilesystems], [createFilesystem], [validatePath]), and
    - the [maas] package's constraint translation ([convertConstraints],
      [convertTagsToParams], [convertSpacesToBindings],
      [parseDelimitedValues], [addInterfaces]),

    then of the rest of the rootfs provider, of [addStorage] and of the
    commands [retry-provisioning] and [login], followed by the properties
    of these functions.

    Conventions.  A Go [string] is a [string] of bytes.  A [uint64] is an
    [N]; the one place where the code does unsigned arithmetic that can wrap
    (the [index++] of [convertSpacesToBindings]) has its wrap-around written
    out.  A Go pointer that may be [nil] is an [option].  A Go [error] result
    is an [option error], [None] being [nil].  A run-time panic is the
    [Panic] outcome of the [M] monad. *)

From Stdlib Require Import Ascii String.
From stdpp Require Import gmap strings list pretty.

Set Warnings "-register-all,-clear-no-such-hyp".
Set Default Proof Using "Type".
Local Open Scope string_scope.
Local Open Scope list_scope.
Local Open Scope N_scope.

(** ** Go library functions used by the code *)

Module Go.

(** [strings.HasPrefix]. *)
Definition HasPrefix (s prefix : string) : bool := String.prefix prefix s.

Fixpoint drop_bytes (n : nat) (s : string) : string :=
  match n, s with
  | O, _ => s
  | S n', String _ s' => drop_bytes n' s'
  | S _, EmptyString => EmptyString
  end.

(** [strings.TrimPrefix]. *)
Definition TrimPrefix (s prefix : string) : string :=
  if HasPrefix s prefix then drop_bytes (String.length prefix) s else s.

(** [strings.Join]. *)
Fixpoint Join (elems : list string) (sep : string) : string :=
  match elems with
  | [] => ""
  | [e] => e
  | e :: rest => e +:+ sep +:+ Join rest sep
  end.

(** [break_at sep s] cuts [s] at the first byte [sep]: [None] when [sep]
    does not occur, the text before and the text after it otherwise. *)
Fixpoint break_at (sep : ascii) (s : string) : option (string * string) :=
  match s with
  | EmptyString => None
  | String c s' =>
      if decide (c = sep) then Some (EmptyString, s')
      else match break_at sep s' with
           | None => None
           | Some (before, after) => Some (String c before, after)
           end
  end.

(** [strings.SplitN s sep n] for a one-byte separator and [n >= 0]: at
    most [n] pieces, the last one being the unsplit remainder. *)
Fixpoint SplitN (s : string) (sep : ascii) (n : nat) : list string :=
  match n with
  | O => []
  | S O => [s]
  | S n' =>
      match break_at sep s with
      | None => [s]
      | Some (before, after) => before :: SplitN after sep n'
      end
  end.

(** The white space of [unicode.IsSpace] among the one-byte characters:
    tab, line feed, vertical tab, form feed, carriage return, space.  The
    white space that UTF-8 writes on several bytes (U+0085, U+00A0 and
    beyond) is not recognised: the text is taken to be ASCII. *)
Definition isSpace (c : ascii) : bool :=
  let n := N_of_ascii c in
  ((9 <=? n) && (n <=? 13)) || (n =? 32).

Fixpoint trimLeft (s : string) : string :=
  match s with
  | String c s' => if isSpace c then trimLeft s' else s
  | EmptyString => EmptyString
  end.

Fixpoint trimRight (s : string) : string :=
  match s with
  | EmptyString => EmptyString
  | String c s' =>
      match trimRight s' with
      | EmptyString => if isSpace c then EmptyString else String c EmptyString
      | t => String c t
      end
  end.

(** [strings.TrimSpace]. *)
Definition TrimSpace (s : string) : string := trimRight (trimLeft s).

(** The two failures of [strconv.ParseUint]. *)
Inductive NumError := ErrSyntax | ErrRange.

Definition maxUint64 : N := 2 ^ 64 - 1.

(** The digit loop of [strconv.ParseUint] in base 10 with bit size 64:
    [n] is the value read so far. *)
Fixpoint parseDigits (s : string) (n : N) : N * option NumError :=
  match s with
  | EmptyString => (n, None)
  | String c s' =>
      let d := N_of_ascii c in
      if (48 <=? d) && (d <=? 57) then
        let cutoff := maxUint64 / 10 + 1 in
        if cutoff <=? n then (maxUint64, Some ErrRange)
        else
          let n10 := n * 10 in
          let n1 := (n10 + (d - 48)) mod 2 ^ 64 in
          if (n1 <? n10) || (maxUint64 <? n1) then (maxUint64, Some ErrRange)
          else parseDigits s' n1
      else (0, Some ErrSyntax)
  end.

(** [strconv.ParseUint s 10 64]. *)
Definition ParseUint (s : string) : N * option NumError :=
  match s with
  | EmptyString => (0, Some ErrSyntax)
  | _ => parseDigits s 0
  end.

(** [fmt.Sprintf] of one unsigned integer under the verb [%d] or [%v]. *)
Definition FormatUint (n : N) : string := pretty n.

(** The verb [%q] of [fmt.Sprintf] on a string ([strconv.Quote]) belongs
    to Go's library and depends on its Unicode tables; the code only uses
    it inside error messages.  It is left as an interface. *)
Class Quoting := Quote : string -> string.

(** A [Quoting] for names made of printable one-byte characters other
    than the quote and the backslash, which [strconv.Quote] copies
    unchanged between two quotes. *)
Definition plainQuote : Quoting := fun s => String "034" s +:+ String "034" "".

End Go.

(** ** Errors, as built with the [github.com/juju/errors] package *)

Module Errors.

Inductive Errno := ENOENT | ENOTDIR | ENOTEMPTY | EBUSY.

#[export] Instance Errno_eq_dec : EqDecision Errno.
Proof. solve_decision. Defined.

Inductive error :=
| New (msg : string)                       (* errors.New, errors.Errorf *)
| Annotate (cause : error) (msg : string)  (* errors.Annotate *)
| Trace (cause : error)                    (* errors.Trace *)
| NotSupportedf (what : string)            (* errors.NotSupportedf *)
| NewNotValid (cause : option error) (msg : string) (* errors.NewNotValid *)
| PathError (op path : string) (errno : Errno)      (* *os.PathError *)
| NumError (fn num : string) (err : Go.NumError)    (* *strconv.NumError *)
| Other (msg : string).                    (* any other error value *)

(** [os.IsNotExist]: looks through a [*os.PathError] for [ENOENT]; it
    does not look through the wrappers of the errors package, and it is
    false on [nil]. *)
Definition IsNotExist (err : option error) : bool :=
  match err with
  | Some (PathError _ _ ENOENT) => true
  | _ => false
  end.

(** [errors.Cause]. *)
Fixpoint Cause (err : error) : error :=
  match err with
  | Annotate cause _ => Cause cause
  | Trace cause => Cause cause
  | _ => err
  end.

(** [errors.IsNotValid]. *)
Definition IsNotValid (err : error) : bool :=
  match Cause err with NewNotValid _ _ => true | _ => false end.

(** [errors.IsNotSupported]. *)
Definition IsNotSupported (err : error) : bool :=
  match Cause err with NotSupportedf _ => true | _ => false end.

End Errors.

(** ** The host file system

    The rootfs source reaches the file system through [os.Lstat],
    [os.MkdirAll], [ioutil.ReadDir] (behind the [dirFuncs] interface) and
    [os.Remove].  They are modelled on a tree of directories and files for
    one user with every permission; a path is split at its slashes into
    names, read from the root, and is taken to be free of [.] and [..]
    components and of symbolic links.  A directory keeps the permission
    bits it was created with. *)

Module Fs.
Import Errors.

Inductive node :=
| File
| Dir (perm : N) (entries : gmap string node).

(** The file system is its root node, a directory on every real host. *)
Definition FS := node.

Fixpoint fields (s : string) : list string :=
  match s with
  | EmptyString => [EmptyString]
  | String c s' =>
      if decide (c = "/"%char) then EmptyString :: fields s'
      else match fields s' with
           | f :: fs => String c f :: fs
           | [] => [String c EmptyString]
           end
  end.

(** The names of a path, from the root. *)
Definition components (path : string) : list string :=
  filter (fun c => c ≠ EmptyString) (fields path).

(** Path resolution: the node reached from [n] through the names [cs]. *)
Fixpoint find (cs : list string) (n : node) : Errno + node :=
  match cs with
  | [] => inr n
  | c :: cs' =>
      match n with
      | File => inl ENOTDIR
      | Dir _ es =>
          match es !! c with
          | None => inl ENOENT
          | Some child => find cs' child
          end
      end
  end.

(** [mkdir -p]: every missing directory on the way is created empty with
    [perm]; a file on the way is an error and nothing is created. *)
Fixpoint mkdirs (perm : N) (cs : list string) (n : node) : Errno + node :=
  match n with
  | File => inl ENOTDIR
  | Dir m es =>
      match cs with
      | [] => inr n
      | c :: cs' =>
          match mkdirs perm cs' (default (Dir perm ∅) (es !! c)) with
          | inl e => inl e
          | inr child => inr (Dir m (<[c := child]> es))
          end
      end
  end.

(** [unlink] or [rmdir] of the last name: a file or an empty directory
    goes, a directory with entries stays, and so does the root. *)
Fixpoint remove (cs : list string) (n : node) : Errno + node :=
  match cs with
  | [] => inl EBUSY
  | c :: cs' =>
      match n with
      | File => inl ENOTDIR
      | Dir m es =>
          match es !! c with
          | None => inl ENOENT
          | Some child =>
              match cs' with
              | [] =>
                  match child with
                  | File => inr (Dir m (delete c es))
                  | Dir _ es' =>
                      if decide (size es' = 0%nat)
                      then inr (Dir m (delete c es))
                      else inl ENOTEMPTY
                  end
              | _ :: _ =>
                  match remove cs' child with
                  | inl e => inl e
                  | inr child' => inr (Dir m (<[c := child']> es))
                  end
              end
          end
      end
  end.

End Fs.

(** ** The rootfs storage provider (package [provider]) *)

Module Rootfs.
Import Go Errors Fs.

(** *** Computations on the file system that may panic *)

Inductive outcome (A : Type) :=
| Ret (a : A)
| Panic (msg : string).
Arguments Ret {A} a.
Arguments Panic {A} msg.

Definition M (A : Type) : Type := FS -> outcome A * FS.

Definition ret {A} (a : A) : M A := fun fs => (Ret a, fs).
Definition panic {A} (msg : string) : M A := fun fs => (Panic msg, fs).
Definition bind {A B} (k : A -> M B) (m : M A) : M B :=
  fun fs =>
    match m fs with
    | (Ret a, fs') => k a fs'
    | (Panic msg, fs') => (Panic msg, fs')
    end.

#[export] Instance M_ret : MRet M := @ret.
#[export] Instance M_bind : MBind M := @bind.

(** *** Types of the [storage] and [os] packages

    Two records of Rocq may not share a field name, so [Tag], [Size] and
    [Attachment] of [storage.FilesystemParams] are [ParamsTag],
    [ParamsSize] and [Attachment], [Machine] and [Path] of
    [storage.FilesystemAttachmentParams] are [AttMachine] and [AttPath],
    and [Filesystem] of [storage.FilesystemAttachment] is [AFilesystem];
    the tags of the [names] package are their strings. *)

(** [os.FileInfo], as far as the code looks at it. *)
Record FileInfo := { IsDir : bool }.

(** Modelled from the spec: [storage.FilesystemAttachmentParams], declared
    in the [storage] package; the attachment of a request is a machine
    and a mount path. *)
Record FilesystemAttachmentParams := {
  AttMachine : string;   (* names.MachineTag *)
  AttPath : string
}.

(** Modelled from the spec: [storage.FilesystemParams], declared in the
    [storage] package; a request is a tag, a requested size and an
    optional attachment. *)
Record FilesystemParams := {
  ParamsTag : string;    (* names.FilesystemTag *)
  ParamsSize : N;        (* uint64, MiB *)
  Attachment : option FilesystemAttachmentParams
}.

(** Modelled from the spec: [storage.Filesystem], declared in the
    [storage] package; a tag and a measured size. *)
Record Filesystem := {
  Tag : string;
  Size : N
}.

(** Modelled from the spec: [storage.FilesystemAttachment], declared in
    the [storage] package; a filesystem tag, a machine and a mount path. *)
Record FilesystemAttachment := {
  AFilesystem : string;
  Machine : string;
  Path : string
}.

(** The zero values of [var filesystem storage.Filesystem] and
    [var filesystemAttachment storage.FilesystemAttachment]. *)
Definition zeroFilesystem : Filesystem := {| Tag := ""; Size := 0 |}.
Definition zeroAttachment : FilesystemAttachment :=
  {| AFilesystem := ""; Machine := ""; Path := "" |}.

(** *** [dirFuncs] and the command runner *)

Record dirFuncs := {
  mkDirAll : string -> N -> M (option error);
  lstat : string -> M (option FileInfo * option error);
  fileCount : string -> M (Z * option error)
}.

(** Modelled from the spec: [runCommandFunc], declared elsewhere in the
    package; [run(commandName, args...)] gives the standard output and an
    error.  A command may touch the file system, so it is a computation. *)
Definition runCommandFunc : Type :=
  string -> list string -> M (string * option error).

(** The field [dirFuncs] of the source is [dirs] here. *)
Record rootfsFilesystemSource := {
  dirs : dirFuncs;
  run : runCommandFunc;
  storageDir : string
}.

(** *** The real directory functions, [osDirFuncs], and [os.Remove] *)

Definition os_MkdirAll (path : string) (perm : N) : M (option error) :=
  fun fs =>
    if decide (path = "") then (Ret (Some (PathError "mkdir" path ENOENT)), fs)
    else match mkdirs perm (components path) fs with
         | inl e => (Ret (Some (PathError "mkdir" path e)), fs)
         | inr fs' => (Ret None, fs')
         end.

Definition os_Lstat (path : string) : M (option FileInfo * option error) :=
  fun fs =>
    if decide (path = "") then (Ret (None, Some (PathError "lstat" path ENOENT)), fs)
    else match find (components path) fs with
         | inl e => (Ret (None, Some (PathError "lstat" path e)), fs)
         | inr File => (Ret (Some {| IsDir := false |}, None), fs)
         | inr (Dir _ _) => (Ret (Some {| IsDir := true |}, None), fs)
         end.

(** [ioutil.ReadDir] and the length of its result. *)
Definition os_fileCount (path : string) : M (Z * option error) :=
  fun fs =>
    if decide (path = "")
    then (Ret (0%Z, Some (Annotate (PathError "open" path ENOENT) "could not read directory")), fs)
    else match find (components path) fs with
         | inl e =>
             (Ret (0%Z, Some (Annotate (PathError "open" path e) "could not read directory")), fs)
         | inr File =>
             (Ret (0%Z, Some (Annotate (PathError "readdirent" path ENOTDIR) "could not read directory")), fs)
         | inr (Dir _ es) => (Ret (Z.of_nat (size es), None), fs)
         end.

Definition osDirFuncs : dirFuncs :=
  {| mkDirAll := os_MkdirAll; lstat := os_Lstat; fileCount := os_fileCount |}.

Definition os_Remove (path : string) : M (option error) :=
  fun fs =>
    if decide (path = "") then (Ret (Some (PathError "remove" path ENOENT)), fs)
    else match remove (components path) fs with
         | inl e => (Ret (Some (PathError "remove" path e)), fs)
         | inr fs' => (Ret None, fs')
         end.

(** The permission bits [0755] of the source, an octal literal. *)
Definition perm_0755 : N := 7 * 64 + 5 * 8 + 5.

Section Source.
Context `{Quoting}.
Variable s : rootfsFilesystemSource.

(** [ValidateFilesystemParams]. *)
Definition ValidateFilesystemParams (params : FilesystemParams) : option error :=
  match Attachment params with
  | None => Some (NotSupportedf "creating filesystem without machine attachment")
  | Some _ => None
  end.

(** [validatePath]. *)
Definition validatePath (path : string) : M (option error) :=
  '(fi, err) ← lstat (dirs s) path;
  if IsNotExist err then
    err ← mkDirAll (dirs s) path perm_0755;
    match err with
    | Some err => ret (Some (Annotate err "could not create directory"))
    | None => ret None
    end
  else
    match fi with
    | None => panic "invalid memory address or nil pointer dereference"
    | Some fi =>
        if negb (IsDir fi) then
          ret (Some (New ("path " +:+ Quote path +:+ " must be a directory")))
        else
          '(fileCount, err) ← fileCount (dirs s) path;
          match err with
          | Some err => ret (Some (Annotate err "could not read directory"))
          | None =>
              if (0 <? fileCount)%Z then ret (Some (New "path must be empty"))
              else ret None
          end
    end.

(** [createFilesystem]. *)
Definition createFilesystem (params : FilesystemParams)
  : M (Filesystem * FilesystemAttachment * option error) :=
  let filesystem := zeroFilesystem in
  let filesystemAttachment := zeroAttachment in
  match ValidateFilesystemParams params with
  | Some err => ret (filesystem, filesystemAttachment, Some (Trace err))
  | None =>
      match Attachment params with
      | None => panic "invalid memory address or nil pointer dereference"
      | Some attachment =>
          let path := AttPath attachment in
          if decide (path = "") then
            ret (filesystem, filesystemAttachment,
                 Some (New "cannot create a filesystem mount without specifying a path"))
          else
            err ← validatePath path;
            match err with
            | Some err => ret (filesystem, filesystemAttachment, Some err)
            | None =>
                let filesystemAttachment :=
                  {| AFilesystem := ParamsTag params;
                     Machine := AttMachine attachment;
                     Path := path |} in
                '(dfOutput, err) ← run s "df" ["--output=size"; path];
                match err with
                | Some err =>
                    _ ← os_Remove path;
                    ret (filesystem, filesystemAttachment,
                         Some (Annotate err "getting size"))
                | None =>
                    let lines := SplitN dfOutput "010" 2 in
                    match lines !! 1%nat with
                    | None => panic "index out of range"
                    | Some line =>
                        let '(blocks, err) := ParseUint (TrimSpace line) in
                        match err with
                        | Some err =>
                            _ ← os_Remove path;
                            ret (filesystem, filesystemAttachment,
                                 Some (Annotate
                                         (NumError "ParseUint" (TrimSpace line) err)
                                         "parsing size"))
                        | None =>
                            let sizeInMiB := blocks / 1024 in
                            if sizeInMiB <? ParamsSize params then
                              _ ← os_Remove path;
                              ret (filesystem, filesystemAttachment,
                                   Some (New ("filesystem is not big enough ("
                                              +:+ FormatUint sizeInMiB +:+ "M < "
                                              +:+ FormatUint (ParamsSize params) +:+ "M)")))
                            else
                              let filesystem :=
                                {| Tag := ParamsTag params; Size := sizeInMiB |} in
                              ret (filesystem, filesystemAttachment, None)
                        end
                    end
                end
            end
      end
  end.

(** The loop of [CreateFilesystems]; a [nil] slice is [None]. *)
Fixpoint CreateFilesystems_loop (args : list FilesystemParams)
    (filesystems : list Filesystem)
    (filesystemAttachments : list FilesystemAttachment)
  : M (option (list Filesystem) * option (list FilesystemAttachment) * option error) :=
  match args with
  | [] => ret (Some filesystems, Some filesystemAttachments, None)
  | arg :: rest =>
      '(filesystem, filesystemAttachment, err) ← createFilesystem arg;
      match err with
      | Some err => ret (None, None, Some (Annotate err "creating filesystem"))
      | None =>
          CreateFilesystems_loop rest
            (filesystems ++ [filesystem])
            (filesystemAttachments ++ [filesystemAttachment])
      end
  end.

(** [CreateFilesystems]. *)
Definition CreateFilesystems (args : list FilesystemParams)
  : M (option (list Filesystem) * option (list FilesystemAttachment) * option error) :=
  CreateFilesystems_loop args [] [].

End Source.

End Rootfs.

(** ** Constraint translation for MAAS (package [maas]) *)

Module Maas.
Import Go Errors.

(** [url.Values], a map from a key to the list of its values. *)
Abbreviation Values := (gmap string (list string)).

(** [url.Values.Add]: [v[key] = append(v[key], value)]. *)
Definition Add (key value : string) (v : Values) : Values :=
  <[key := default [] (v !! key) ++ [value]]> v.

(** Modelled from the spec: [constraints.Value], declared in the
    [constraints] package; each field is optional, and the tags and the
    spaces are signed lists.  Only the fields this file reads are kept. *)
Record Value := {
  Arch : option string;
  CpuCores : option N;
  Mem : option N;
  CpuPower : option N;
  Tags : option (list string);
  Spaces : option (list string)
}.

Record interfaceBinding := {
  Name : string;
  SpaceProviderId : string;
  IsExcluded : bool
}.

(** [index++] on a [uint], 64 bits wide as on the 64-bit platforms. *)
Definition uint_succ (index : N) : N := (index + 1) mod 2 ^ 64.

(** [parseDelimitedValues]. *)
Definition parseDelimitedValues (rawValues : list string) : list string * list string :=
  fold_left
    (fun '(positives, negatives) value =>
       if decide (value = "" \/ value = "^") then (positives, negatives)
       else if HasPrefix value "^"
            then (positives, negatives ++ [TrimPrefix value "^"])
            else (positives ++ [value], negatives))
    rawValues ([], []).

(** [convertTagsToParams]; the map it updates in place is returned. *)
Definition convertTagsToParams (params : Values) (tags : option (list string)) : Values :=
  match tags with
  | None => params
  | Some tags =>
      if decide (length tags = 0%nat) then params
      else
        let '(positives, negatives) := parseDelimitedValues tags in
        let params :=
          if decide (0 < length positives)%nat
          then Add "tags" (Join positives ",") params else params in
        let params :=
          if decide (0 < length negatives)%nat
          then Add "not_tags" (Join negatives ",") params else params in
        params
  end.

(** [convertConstraints]; the second component lists the warnings it
    sends to the package's logger. *)
Definition convertConstraints (cons : Value) : Values * list string :=
  let params : Values := ∅ in
  let params :=
    match Arch cons with Some arch => Add "arch" arch params | None => params end in
  let params :=
    match CpuCores cons with
    | Some cores => Add "cpu_count" (FormatUint cores) params
    | None => params
    end in
  let params :=
    match Mem cons with Some mem => Add "mem" (FormatUint mem) params | None => params end in
  let params := convertTagsToParams params (Tags cons) in
  let warnings :=
    match CpuPower cons with
    | Some _ => ["ignoring unsupported constraint 'cpu-power'"]
    | None => []
    end in
  (params, warnings).

(** One of the two loops of [convertSpacesToBindings], on the pair of
    [bindings] and [index]. *)
Definition appendBindings (excluded : bool) (spaces : list string)
    (st : list interfaceBinding * N) : list interfaceBinding * N :=
  fold_left
    (fun '(bindings, index) space =>
       (bindings ++ [{| Name := FormatUint index;
                        SpaceProviderId := space;
                        IsExcluded := excluded |}],
        uint_succ index))
    spaces st.

(** [convertSpacesToBindings]. *)
Definition convertSpacesToBindings (spaces : option (list string)) : list interfaceBinding :=
  match spaces with
  | None => []
  | Some spaces =>
      if decide (length spaces = 0%nat) then []
      else
        let index := 0 in
        let bindings := [] in
        let '(positives, negatives) := parseDelimitedValues spaces in
        let '(bindings, index) := appendBindings false positives (bindings, index) in
        let '(bindings, index) := appendBindings true negatives (bindings, index) in
        bindings
  end.

Section Encoder.
Context `{Quoting}.

(** The loop of [addInterfaces], on [positives], [negatives] and
    [namesSet]; an error leaves the loop at once. *)
Fixpoint addInterfaces_loop (bindings : list interfaceBinding)
    (positives negatives : list string) (namesSet : gset string)
  : error + (list string * list string) :=
  match bindings with
  | [] => inr (positives, negatives)
  | binding :: rest =>
      if decide (Name binding = "") then
        inl (NewNotValid None "interface bindings cannot have empty names")
      else if decide (SpaceProviderId binding = "") then
        inl (NewNotValid None
               ("invalid interface binding " +:+ Quote (Name binding)
                +:+ ": space provider ID is required"))
      else if decide (Name binding ∈ namesSet) then
        inl (NewNotValid None
               ("duplicated interface binding " +:+ Quote (Name binding)))
      else
        let namesSet := {[Name binding]} ∪ namesSet in
        if IsExcluded binding then
          addInterfaces_loop rest positives
            (negatives ++ ["space:" +:+ SpaceProviderId binding]) namesSet
        else
          addInterfaces_loop rest
            (positives ++ [Name binding +:+ ":space=" +:+ SpaceProviderId binding])
            negatives namesSet
  end.

(** [addInterfaces]; the map it updates in place is returned with the
    error. *)
Definition addInterfaces (params : Values) (bindings : list interfaceBinding)
  : Values * option error :=
  if decide (length bindings = 0%nat) then (params, None)
  else
    match addInterfaces_loop bindings [] [] ∅ with
    | inl err => (params, Some err)
    | inr (positives, negatives) =>
        let params :=
          if decide (0 < length positives)%nat
          then Add "interfaces" (Join positives ";") params else params in
        let params :=
          if decide (0 < length negatives)%nat
          then Add "not_networks" (Join negatives ",") params else params in
        (params, None)
    end.

End Encoder.

End Maas.

(** ** Notions used to state the properties *)

Module MaasNotions.
Import Go Errors Maas.

(** The exclusion marker of a signed list. *)
Definition marker : string := "^".

(** An entry that is neither empty nor the bare marker. *)
Definition kept (v : string) : Prop := v <> "" /\ v <> marker.

(** A kept entry without, and with, the marker in front. *)
Definition positive (v : string) : Prop := kept v /\ HasPrefix v marker = false.
Definition negative (v : string) : Prop := kept v /\ HasPrefix v marker = true.

(** A negative entry without its marker. *)
Definition strip (v : string) : string := TrimPrefix v marker.

#[export] Instance kept_dec v : Decision (kept v).
Proof. unfold kept. apply _. Defined.
#[export] Instance positive_dec v : Decision (positive v).
Proof. unfold positive. apply _. Defined.
#[export] Instance negative_dec v : Decision (negative v).
Proof. unfold negative. apply _. Defined.

(** The binding of the [i]-th space of a group whose first index is
    [base]; the index is a [uint]. *)
Definition binding (excluded : bool) (base : nat) (i : nat) (space : string)
  : interfaceBinding :=
  {| Name := FormatUint (N.of_nat (base + i) mod 2 ^ 64);
     SpaceProviderId := space;
     IsExcluded := excluded |}.

(** A binding with a name and a space identifier. *)
Definition valid (b : interfaceBinding) : Prop :=
  Name b <> "" /\ SpaceProviderId b <> "".

(** [key=Join elems sep] added to [params] unless [elems] is empty. *)
Definition addWhen (elems : list string) (key sep : string) (params : Values) : Values :=
  match elems with
  | [] => params
  | _ => Add key (Join elems sep) params
  end.

End MaasNotions.

Module RootfsNotions.
Import Go Errors Fs Rootfs.


(** The source bound to the real directory functions, as
    [FilesystemSource] builds it. *)
Definition osSource (run : runCommandFunc) (storageDir : string) : rootfsFilesystemSource :=
  {| dirs := osDirFuncs; run := run; storageDir := storageDir |}.

(** The line feed, and a text without one. *)
Definition newline : ascii := "010"%char.
Definition oneLine (s : string) : Prop := newline ∉ list_ascii_of_string s.



(** A size-report command that prints [out] and leaves the file system
    alone. *)
Definition printing (out : string) : runCommandFunc :=
  fun _ _ => ret (out, None).

(** The attachment that [createFilesystem] fills in once the path is
    validated. *)
Definition attachmentOf (params : FilesystemParams) (att : FilesystemAttachmentParams)
  : FilesystemAttachment :=
  {| AFilesystem := ParamsTag params; Machine := AttMachine att; Path := AttPath att |}.

(** A text ending a line: [String newline rest] after [line]. *)
Definition line_then (line rest : string) : string := line +:+ String newline rest.

(** [served s args fs results fs']: from the file system [fs], every request
    of [args] succeeds, one after the other in the order of the list, with
    [results], and leaves [fs']. *)
Inductive served `{Quoting} (s : rootfsFilesystemSource)
  : list FilesystemParams -> FS -> list (Filesystem * FilesystemAttachment) -> FS -> Prop :=
| served_nil fs : served s [] fs [] fs
| served_cons arg args fs filesystem attachment fs' results fs'' :
    createFilesystem s arg fs = (Ret (filesystem, attachment, None), fs') ->
    served s args fs' results fs'' ->
    served s (arg :: args) fs ((filesystem, attachment) :: results) fs''.

(** The report of a size [blocks] in 1K blocks, as [df --output=size]
    prints it. *)
Definition report (blocks : string) : string :=
  line_then "1K-blocks" (line_then ("    " +:+ blocks) "").

End RootfsNotions.

(** ** The rest of the rootfs provider *)

Module RootfsProvider.
Import Go Errors Fs Rootfs.

(** [rootfsProvider]: its one field is the command runner. *)
Record rootfsProvider := {
  provider_run : runCommandFunc
}.

Section Provider.
(** [storage.Config] and its method [ValueString], which gives the string
    under a key and whether there is one, and the key
    [storage.ConfigStorageDir], belong to the [storage] package; they are
    taken as they come. *)
Variable Config : Type.
Variable ValueString : Config -> string -> string * bool.
Variable ConfigStorageDir : string.
Variable p : rootfsProvider.

(** [ValidateConfig]: the rootfs provider has no configuration. *)
Definition ValidateConfig (cfg : Config) : option error := None.

(** [validateFullConfig]. *)
Definition validateFullConfig (cfg : Config) : option error :=
  match ValidateConfig cfg with
  | Some err => Some err
  | None =>
      let '(storageDir, ok) := ValueString cfg ConfigStorageDir in
      if negb ok || bool_decide (storageDir = "")
      then Some (New "storage directory not specified")
      else None
  end.

(** [VolumeSource]; the environment configuration is not looked at. *)
Definition VolumeSource (providerConfig : Config) : option unit * option error :=
  (None, Some (NotSupportedf "volumes")).

(** [FilesystemSource]; the environment configuration is not looked at. *)
Definition FilesystemSource (sourceConfig : Config)
  : option rootfsFilesystemSource * option error :=
  match validateFullConfig sourceConfig with
  | Some err => (None, Some err)
  | None =>
      let '(storageDir, _) := ValueString sourceConfig ConfigStorageDir in
      (Some {| dirs := osDirFuncs; run := provider_run p; storageDir := storageDir |}, None)
  end.

End Provider.

End RootfsProvider.

(** ** Volumes for MAAS *)

Module MaasStorage.
Import Go Errors Maas.

(** Modelled from the spec: [volumeInfo], declared elsewhere in the
    package; an optional name, a size in GiB and a list of tags. *)
Record volumeInfo := {
  name : string;
  sizeInGB : N;
  tags : list string
}.

(** The closure [makeVolumeParams] of [addStorage]. *)
Definition makeVolumeParams (v : volumeInfo) : string :=
  let params := "" in
  let params := if decide (name v <> "") then name v +:+ ":" else params in
  let params := params +:+ FormatUint (sizeInGB v) in
  let params :=
    if decide (0 < length (tags v))%nat
    then params +:+ ("(" +:+ Join (tags v) "," +:+ ")") else params in
  params.

(** [addStorage]; the map it updates in place is returned. *)
Definition addStorage (params : Values) (volumes : list volumeInfo) : Values :=
  if decide (length volumes = 0%nat) then params
  else
    let volParms :=
      fold_left (fun volParms v => volParms ++ [makeVolumeParams v]) volumes [] in
    Add "storage" (Join volParms ",") params.

End MaasStorage.

(** ** The commands (packages [main] and [system]) *)

Module Commands.
Import Go Errors.

(** The verb [%q] on a slice of strings, as [cmd.CheckEmpty] prints the
    arguments left over. *)
Class QuotingAll := QuoteAll : list string -> string.

(** A return or a run-time panic. *)
Inductive result (A : Type) :=
| Done (a : A)
| Panicked (msg : string).
Arguments Done {A} a.
Arguments Panicked {A} msg.

(** *** [retry-provisioning] *)

(** [RetryProvisioningCommand], without the embedded [EnvCommandBase]. *)
Record RetryProvisioningCommand := {
  Machines : list string
}.

Section RetryProvisioning.
Context `{Quoting}.
(** [names.IsValidMachine] and [names.NewMachineTag(arg).String()] of the
    [names] library. *)
Variable IsValidMachine : string -> bool.
Variable MachineTagString : string -> string.

(** The loop of [Init] from the index [i] on: [Machines[i]] is assigned in
    place, and an invalid argument leaves the loop. *)
Fixpoint Init_loop (i : nat) (args : list string) (machines : list string)
  : list string * option error :=
  match args with
  | [] => (machines, None)
  | arg :: rest =>
      if negb (IsValidMachine arg)
      then (machines, Some (New ("invalid machine " +:+ Quote arg)))
      else Init_loop (S i) rest (<[i := MachineTagString arg]> machines)
  end.

(** [RetryProvisioningCommand.Init]; the command it updates is returned with
    the error. *)
Definition RetryInit (c : RetryProvisioningCommand) (args : list string)
  : RetryProvisioningCommand * option error :=
  if decide (length args = 0%nat) then (c, Some (New "no machine specified"))
  else
    let machines := replicate (length args) "" in
    let '(machines, err) := Init_loop 0 args machines in
    ({| Machines := machines |}, err).

End RetryProvisioning.

(** [params.ErrorResult]: the error of one machine, nil or the text that
    the verb [%v] prints for it. *)
Record ErrorResult := {
  Error : option string
}.

(** What [Run] does to the outside: a [RetryProvisioning] request with its
    machine tags, a line on the standard error of the context, the closing
    of the client. *)
Inductive event (MachineTag : Type) :=
| Requested (machines : list MachineTag)
| Stderr (line : string)
| Closed.
Arguments Requested {MachineTag} machines.
Arguments Stderr {MachineTag} line.
Arguments Closed {MachineTag}.

Section RetryRun.
Context `{Quoting}.
(** [names.MachineTag] and [names.ParseMachineTag] of the [names] library,
    the result of [c.NewAPIClient()] (nil or an error), and the answer of
    the client to [RetryProvisioning]. *)
Variable MachineTag : Type.
Variable ParseMachineTag : string -> MachineTag * option error.
Variable NewAPIClient : option error.
Variable RetryProvisioning : list MachineTag -> list ErrorResult * option error.

(** The loop of [Run] over [c.Machines]. *)
Fixpoint parseTags (tags : list string) (machines : list MachineTag)
  : list MachineTag * option error :=
  match tags with
  | [] => (machines, None)
  | tag :: rest =>
      let '(machine, err) := ParseMachineTag tag in
      match err with
      | Some err => (machines, Some (Trace err))
      | None => parseTags rest (machines ++ [machine])
      end
  end.

(** The loop of [Run] over the results, from the index [i] on: the lines
    written so far, and whether [c.Machines[i]] was out of range. *)
Fixpoint report (c : RetryProvisioningCommand) (i : nat) (results : list ErrorResult)
    (lines : list string) : result unit * list string :=
  match results with
  | [] => (Done tt, lines)
  | r :: rest =>
      match Error r with
      | None => report c (S i) rest lines
      | Some text =>
          match Machines c !! i with
          | None => (Panicked "index out of range", lines)
          | Some machine =>
              report c (S i) rest
                (lines ++ ["cannot retry provisioning " +:+ Quote machine +:+ ": "
                           +:+ text +:+ String "010" ""])
          end
      end
  end.

(** [RetryProvisioningCommand.Run]: what it returns and what it does, in
    order; the deferred [client.Close()] comes last. *)
Definition RetryRun (c : RetryProvisioningCommand)
  : result (option error) * list (event MachineTag) :=
  match NewAPIClient with
  | Some err => (Done (Some err), [])
  | None =>
      let '(machines, err) := parseTags (Machines c) [] in
      match err with
      | Some err => (Done (Some err), [Closed])
      | None =>
          let '(results, err) := RetryProvisioning machines in
          match err with
          | Some err => (Done (Some err), [Requested machines; Closed])
          | None =>
              let '(r, lines) := report c 0 results [] in
              let events := Requested machines :: (Stderr <$> lines) ++ [Closed] in
              match r with
              | Done _ => (Done None, events)
              | Panicked msg => (Panicked msg, events)
              end
          end
      end
  end.

End RetryRun.

(** *** [login] *)

Section Login.
Context `{QuotingAll}.
(** The types of the two function fields. *)
Variable APIOpenFunc : Type.
Variable GetUserManagerFunc : Type.
(** The package's functions [apiOpen] and [getUserManager], the defaults
    of the two fields. *)
Variable apiOpen : APIOpenFunc.
Variable getUserManager : GetUserManagerFunc.

(** [LoginCommand]; a nil function field is [None]. *)
Record LoginCommand := {
  cmd_apiOpen : option APIOpenFunc;
  cmd_getUserManager : option GetUserManagerFunc;
  ServerPath : string;
  Name : string;
  NewPassword : bool
}.

(** [cmd.CheckEmpty] of the [cmd] library. *)
Definition CheckEmpty (args : list string) : option error :=
  if decide (length args <> 0%nat)
  then Some (New ("unrecognized args: " +:+ QuoteAll args))
  else None.

(** [LoginCommand.Init]; the command it updates is returned with the
    error. *)
Definition LoginInit (c : LoginCommand) (args : list string) : LoginCommand * option error :=
  let c :=
    match cmd_apiOpen c with
    | None =>
        {| cmd_apiOpen := Some apiOpen; cmd_getUserManager := cmd_getUserManager c;
           ServerPath := ServerPath c; Name := Name c; NewPassword := NewPassword c |}
    | Some _ => c
    end in
  let c :=
    match cmd_getUserManager c with
    | None =>
        {| cmd_apiOpen := cmd_apiOpen c; cmd_getUserManager := Some getUserManager;
           ServerPath := ServerPath c; Name := Name c; NewPassword := NewPassword c |}
    | Some _ => c
    end in
  match args with
  | [] => (c, Some (New "no name specified"))
  | arg0 :: args =>
      let c :=
        {| cmd_apiOpen := cmd_apiOpen c; cmd_getUserManager := cmd_getUserManager c;
           ServerPath := ServerPath c; Name := arg0; NewPassword := NewPassword c |} in
      (c, CheckEmpty args)
  end.

End Login.

(** *** [updatePassword] *)

(** [configstore.APICredentials]. *)
Record APICredentials := {
  User : string;
  Password : string
}.

(** What [updatePassword] acts on: the credentials that the [serverInfo]
    object holds in memory, and the lines sent to [ctx.Infof]. *)
Record session := {
  held : APICredentials;
  printed : list string
}.

(** The interface [UserManager]: [SetPassword] gives an error or nil. *)
Record UserManager := {
  SetPassword : string -> string -> option error
}.

Section UpdatePassword.
(** The result of [utils.RandomPassword], the field [getUserManager] of
    the command applied to the connection, [userTag.Name()], and
    [serverInfo.Write] on the credentials held. *)
Variable RandomPassword : string * option error.
Variable userManagerOf : option UserManager * option error.
Variable userName : string.
Variable Write : APICredentials -> option error.

(** [LoginCommand.updatePassword].  The error of [SetPassword] is passed to
    [errors.Trace] and the result of that is not used. *)
Definition updatePassword (st : session) : result (option error) * session :=
  let '(password, err) := RandomPassword in
  match err with
  | Some err => (Done (Some (Annotate err "failed to generate random password")), st)
  | None =>
      let '(userManager, err) := userManagerOf in
      match err with
      | Some err => (Done (Some (Trace err)), st)
      | None =>
          match userManager with
          | None => (Panicked "invalid memory address or nil pointer dereference", st)
          | Some userManager =>
              let _ :=
                match SetPassword userManager userName password with
                | Some err => Some (Trace err)
                | None => None
                end in
              let st :=
                {| held := held st;
                   printed := printed st ++ ["password updated" +:+ String "010" ""] |} in
              let creds := held st in
              let creds := {| User := User creds; Password := password |} in
              let st := {| held := creds; printed := printed st |} in
              match Write (held st) with
              | Some err => (Done (Some (Trace err)), st)
              | None => (Done None, st)
              end
          end
      end
  end.

End UpdatePassword.

End Commands.

(** ** More notions used to state the properties *)

Module MoreNotions.
Import Go Errors Maas MaasNotions.

(** How [addInterfaces] writes a binding that is not excluded, and one
    that is. *)
Definition encodeIncluded (b : interfaceBinding) : string :=
  Name b +:+ ":space=" +:+ SpaceProviderId b.
Definition encodeExcluded (b : interfaceBinding) : string :=
  "space:" +:+ SpaceProviderId b.

(** The bindings of a list that are not excluded, and those that are. *)
Definition included (bindings : list interfaceBinding) : list interfaceBinding :=
  filter (fun b => IsExcluded b = false) bindings.
Definition excluded (bindings : list interfaceBinding) : list interfaceBinding :=
  filter (fun b => IsExcluded b = true) bindings.

(** The line that [Run] writes for a machine whose result carries an
    error, if it does. *)
Definition complaint `{Quoting} (machine : string) (r : Commands.ErrorResult)
  : option string :=
  (fun text => "cannot retry provisioning " +:+ Quote machine +:+ ": "
               +:+ text +:+ String "010" "")
    <$> Commands.Error r.

(** [params] keeps every value it has in [params']: each key of [params]
    is a key of [params'] whose list of values begins with the old one. *)
Definition extendedBy (params params' : Values) : Prop :=
  forall key values, params !! key = Some values ->
    exists more, params' !! key = Some (values ++ more).

End MoreNotions.

(** ** Properties of the rootfs provider *)

Module RootfsFacts.
Import Go Errors Fs Rootfs RootfsNotions.

(** *** The file system *)


Lemma mkdirs_fresh perm cs :
  exists n, mkdirs perm cs (Dir perm ∅) = inr n /\ find cs n = inr (Dir perm ∅).
Proof.
  induction cs as [|c cs IH]; simpl.
  - eauto.
  - rewrite lookup_empty. simpl. destruct IH as (n & -> & Hfind).
    eexists. split; [done|]. simpl. by rewrite lookup_insert_eq.
Qed.

Lemma find_mkdirs perm cs : forall n,
  find cs n = inl ENOENT ->
  exists n', mkdirs perm cs n = inr n' /\ find cs n' = inr (Dir perm ∅).
Proof.
  induction cs as [|c cs IH]; intros n; simpl; [done|].
  destruct n as [|m es]; [done|].
  destruct (es !! c) as [child|] eqn:Hc; simpl.
  - intros Hfind. destruct (IH child Hfind) as (n' & -> & Hn').
    eexists. split; [done|]. simpl. by rewrite lookup_insert_eq.
  - intros _. destruct (mkdirs_fresh perm cs) as (n' & -> & Hn').
    eexists. split; [done|]. simpl. by rewrite lookup_insert_eq.
Qed.










(** *** Lines of the command output *)

Lemma break_at_None sep s :
  break_at sep s = None <-> sep ∉ list_ascii_of_string s.
Proof.
  induction s as [|c s IH]; simpl.
  - split; [intros _; apply not_elem_of_nil|done].
  - rewrite not_elem_of_cons. case_decide as Hc.
    + split; [done|]. intros [Hne _]. by destruct Hne.
    + destruct (break_at sep s) as [[before after]|].
      * split; [done|]. intros [_ Hs]. by apply IH in Hs.
      * split; [|done]. intros _. split; [done|]. by apply IH.
Qed.

Lemma break_at_app sep before after :
  sep ∉ list_ascii_of_string before ->
  break_at sep (before +:+ String sep after) = Some (before, after).
Proof.
  induction before as [|c before IH]; simpl.
  - intros _. by rewrite decide_True.
  - rewrite not_elem_of_cons. intros [Hne Hrest].
    rewrite decide_False by done. by rewrite IH.
Qed.

Lemma SplitN_oneLine out :
  SplitN out newline 2 !! 1%nat = None <-> oneLine out.
Proof.
  unfold oneLine. rewrite <- break_at_None. cbn [SplitN].
  destruct (break_at newline out) as [[before after]|]; [|done].
  split; discriminate.
Qed.

Lemma SplitN_two header line :
  oneLine header ->
  SplitN (header +:+ String newline line) newline 2 = [header; line].
Proof.
  intros Hone. cbn [SplitN]. by rewrite break_at_app.
Qed.

(** *** [validatePath] *)

Ltac run_M :=
  unfold mbind, M_bind, bind, mret, M_ret, ret, panic;
  cbn [dirs lstat mkDirAll fileCount run osSource osDirFuncs].

Section OnTheHost.
Context `{Quoting}.
Variable run : runCommandFunc.
Variable storageDir : string.

#[local] Abbreviation s := (osSource run storageDir).

Lemma validatePath_missing path fs :
  path <> "" -> find (components path) fs = inl ENOENT ->
  exists fs', validatePath s path fs = (Ret None, fs')
    /\ mkdirs perm_0755 (components path) fs = inr fs'
    /\ find (components path) fs' = inr (Dir perm_0755 ∅).
Proof.
  intros Hpath Hfind.
  destruct (find_mkdirs perm_0755 _ _ Hfind) as (fs' & Hmk & Hfs').
  exists fs'. split_and!; [|done|done].
  unfold validatePath. run_M. unfold os_Lstat, os_MkdirAll.
  rewrite !decide_False by done. rewrite Hfind. cbn [IsNotExist].
  rewrite decide_False by done. by rewrite Hmk.
Qed.

Lemma validatePath_file path fs :
  path <> "" -> find (components path) fs = inr File ->
  validatePath s path fs
  = (Ret (Some (New ("path " +:+ Quote path +:+ " must be a directory"))), fs).
Proof.
  intros Hpath Hfind.
  unfold validatePath. run_M. unfold os_Lstat.
  rewrite !decide_False by done. by rewrite Hfind.
Qed.

Lemma validatePath_dir path fs m es :
  path <> "" -> find (components path) fs = inr (Dir m es) ->
  validatePath s path fs
  = (Ret (if decide (size es = 0%nat) then None else Some (New "path must be empty")), fs).
Proof.
  intros Hpath Hfind.
  unfold validatePath. run_M. unfold os_Lstat, os_fileCount.
  rewrite !decide_False by done. rewrite Hfind. cbn [IsNotExist IsDir negb].
  rewrite !decide_False by done. rewrite Hfind.
  case_decide as Hsize.
  - rewrite Hsize. done.
  - destruct (size es); [done|]. done.
Qed.

Lemma validatePath_error path fs e :
  path <> "" -> find (components path) fs = inl e -> e <> ENOENT ->
  validatePath s path fs
  = (Panic "invalid memory address or nil pointer dereference", fs).
Proof.
  intros Hpath Hfind He.
  unfold validatePath. run_M. unfold os_Lstat.
  rewrite !decide_False by done. rewrite Hfind.
  destruct e; done.
Qed.

Lemma validatePath_empty_path fs :
  validatePath s "" fs
  = (Ret (Some (Annotate (PathError "mkdir" "" ENOENT) "could not create directory")), fs).
Proof. reflexivity. Qed.



End OnTheHost.



(** C10.  Whatever the directory functions are, when [lstat] fails with an
    error that is not a does-not-exist error, [validatePath] reaches the
    [IsDir] call on the nil file info and panics; with the real directory
    functions it panics exactly when the path cannot be resolved for a
    reason other than a missing name. *)
Theorem C10_validatePath_nil_FileInfo `{Quoting} :
  (forall (s : rootfsFilesystemSource) path fs fs' err,
     lstat (dirs s) path fs = (Ret (None, Some err), fs') ->
     IsNotExist (Some err) = false ->
     validatePath s path fs
     = (Panic "invalid memory address or nil pointer dereference", fs'))
  /\ (forall run storageDir path fs,
        (exists msg, (validatePath (osSource run storageDir) path fs).1 = Panic msg)
        <-> path <> "" /\ exists e, find (components path) fs = inl e /\ e <> ENOENT).
Proof.
  split.
  - intros s path fs fs' err Hlstat Hnot.
    unfold validatePath. run_M. rewrite Hlstat.
    cbn [IsNotExist] in *. by rewrite Hnot.
  - intros run storageDir path fs. split.
    + intros [msg Hpanic].
      destruct (decide (path = "")) as [->|Hpath];
        [by rewrite validatePath_empty_path in Hpanic|].
      split; [done|].
      destruct (find (components path) fs) as [e|[|m es]] eqn:Hfind.
      * exists e. split; [done|]. intros ->.
        destruct (validatePath_missing run storageDir path fs Hpath Hfind)
          as (fs' & Hv & _).
        by rewrite Hv in Hpanic.
      * by rewrite validatePath_file in Hpanic.
      * by rewrite (validatePath_dir run storageDir path fs m es) in Hpanic.
    + intros (Hpath & e & Hfind & He).
      rewrite (validatePath_error run storageDir path fs e) by done. eauto.
Qed.

(** C10 at [/a/b] where [/a] is a file. *)
Lemma C10_witness :
  let s := osSource (printing "") "/var/lib/juju/storage" in
  let fs := Dir perm_0755 (<["a" := File]> ∅) in
  lstat (dirs s) "/a/b" fs = (Ret (None, Some (PathError "lstat" "/a/b" ENOTDIR)), fs)
  /\ IsNotExist (Some (PathError "lstat" "/a/b" ENOTDIR)) = false
  /\ validatePath (H := plainQuote) s "/a/b" fs
     = (Panic "invalid memory address or nil pointer dereference", fs).
Proof.
  split_and!; [by vm_compute|done|].
  apply (proj1 (C10_validatePath_nil_FileInfo (H := plainQuote)))
    with (err := PathError "lstat" "/a/b" ENOTDIR); by vm_compute.
Defined.

(** *** [createFilesystem] *)

Section Create.
Context `{Quoting}.
Variable s : rootfsFilesystemSource.

Lemma createFilesystem_measured params att fs fs1 fs2 out :
  Attachment params = Some att -> AttPath att <> "" ->
  validatePath s (AttPath att) fs = (Ret None, fs1) ->
  run s "df" ["--output=size"; AttPath att] fs1 = (Ret (out, None), fs2) ->
  createFilesystem s params fs
  = match SplitN out newline 2 !! 1%nat with
    | None => (Panic "index out of range", fs2)
    | Some line =>
        match ParseUint (TrimSpace line) with
        | (_, Some err) =>
            (Ret (zeroFilesystem, attachmentOf params att,
                  Some (Annotate (NumError "ParseUint" (TrimSpace line) err) "parsing size")),
             (os_Remove (AttPath att) fs2).2)
        | (blocks, None) =>
            if blocks / 1024 <? ParamsSize params then
              (Ret (zeroFilesystem, attachmentOf params att,
                    Some (New ("filesystem is not big enough ("
                               +:+ FormatUint (blocks / 1024) +:+ "M < "
                               +:+ FormatUint (ParamsSize params) +:+ "M)"))),
               (os_Remove (AttPath att) fs2).2)
            else
              (Ret ({| Tag := ParamsTag params; Size := blocks / 1024 |},
                    attachmentOf params att, None), fs2)
        end
    end.
Proof.
  intros Hatt Hpath Hvalid Hrun.
  unfold createFilesystem, ValidateFilesystemParams. rewrite Hatt.
  rewrite decide_False by done.
  unfold mbind, M_bind, bind at 1. rewrite Hvalid.
  unfold bind at 1. rewrite Hrun.
  fold newline.
  destruct (SplitN out newline 2 !! 1%nat) as [line|]; [|done].
  destruct (ParseUint (TrimSpace line)) as [blocks [err|]].
  - unfold bind, os_Remove. case_decide; [done|].
    by destruct (remove (components (AttPath att)) fs2).
  - destruct (blocks / 1024 <? ParamsSize params); [|done].
    unfold bind, os_Remove. case_decide; [done|].
    by destruct (remove (components (AttPath att)) fs2).
Qed.

(** C9.  Once the path is validated and the size-report command has
    returned its output without error, [createFilesystem] panics on
    [lines[1]] when the output has no line feed, and returns when it has
    one. *)
Theorem C9_output_without_newline params att fs fs1 fs2 out :
  Attachment params = Some att -> AttPath att <> "" ->
  validatePath s (AttPath att) fs = (Ret None, fs1) ->
  run s "df" ["--output=size"; AttPath att] fs1 = (Ret (out, None), fs2) ->
  (oneLine out -> createFilesystem s params fs = (Panic "index out of range", fs2))
  /\ (~ oneLine out -> exists r fs3, createFilesystem s params fs = (Ret r, fs3)).
Proof.
  intros Hatt Hpath Hvalid Hrun.
  rewrite (createFilesystem_measured params att fs fs1 fs2 out) by done.
  split.
  - intros Hone. apply SplitN_oneLine in Hone. by rewrite Hone.
  - intros Hmore. rewrite <- SplitN_oneLine in Hmore.
    destruct (SplitN out newline 2 !! 1%nat) as [line|]; [|done].
    destruct (ParseUint (TrimSpace line)) as [blocks [err|]]; [eauto|].
    destruct (blocks / 1024 <? ParamsSize params); eauto.
Qed.

End Create.

(** C9 for a report of the header line alone. *)
Lemma C9_witness :
  let s := osSource (printing "1K-blocks") "/var/lib/juju/storage" in
  let att := {| AttMachine := "0"; AttPath := "/mnt/x" |} in
  let params := {| ParamsTag := "filesystem-0"; ParamsSize := 10; Attachment := Some att |} in
  let fs1 := Dir perm_0755 (<["mnt" := Dir perm_0755 (<["x" := Dir perm_0755 ∅]> ∅)]> ∅) in
  validatePath (H := plainQuote) s "/mnt/x" (Dir perm_0755 ∅) = (Ret None, fs1)
  /\ run s "df" ["--output=size"; "/mnt/x"] fs1 = (Ret ("1K-blocks", None), fs1)
  /\ oneLine "1K-blocks"
  /\ createFilesystem (H := plainQuote) s params (Dir perm_0755 ∅)
     = (Panic "index out of range", fs1).
Proof.
  intros s att params fs1.
  assert (oneLine "1K-blocks") as Hone.
  { unfold oneLine. apply SplitN_oneLine. by vm_compute. }
  split_and!; [by vm_compute|done|done|].
  by apply (proj1 (C9_output_without_newline (H := plainQuote) s params att
                     (Dir perm_0755 ∅) fs1 fs1 "1K-blocks"
                     eq_refl ltac:(done) ltac:(by vm_compute) eq_refl)).
Defined.

Section OnTheHostCreate.
Context `{Quoting}.
Variable run : runCommandFunc.
Variable storageDir : string.

#[local] Abbreviation s := (osSource run storageDir).

(** C2.  A request of size 10 attached to machine 0 at [/mnt/x], which does
    not exist, with a size report whose second line reads 20480, succeeds:
    the filesystem has the measured size 20 and the attachment carries the
    tag, the machine and the path. *)
Theorem C2_scenario_measured_size (tag : string) (fs : FS) (header line : string) :
  find ["mnt"; "x"] fs = inl ENOENT ->
  (forall fs', run "df" ["--output=size"; "/mnt/x"] fs'
               = (Ret (line_then header line, None), fs')) ->
  oneLine header ->
  TrimSpace line = "20480" ->
  exists fs',
    createFilesystem s
      {| ParamsTag := tag; ParamsSize := 10;
         Attachment := Some {| AttMachine := "0"; AttPath := "/mnt/x" |} |} fs
    = (Ret ({| Tag := tag; Size := 20 |},
            {| AFilesystem := tag; Machine := "0"; Path := "/mnt/x" |}, None), fs')
    /\ find ["mnt"; "x"] fs' = inr (Dir perm_0755 ∅).
Proof.
  intros Hfind Hrun Hone Hline.
  destruct (validatePath_missing run storageDir "/mnt/x" fs) as (fs' & Hvalid & _ & Hfs');
    [done|done|].
  exists fs'. split; [|done].
  erewrite createFilesystem_measured; [|done|done|exact Hvalid|apply Hrun].
  unfold line_then. rewrite SplitN_two by done. cbn [lookup list_lookup].
  rewrite Hline. reflexivity.
Qed.


(** Directories that stay through a request. *)


Lemma os_Remove_Ret path fs :
  exists e, os_Remove path fs = (Ret e, (os_Remove path fs).2).
Proof.
  unfold os_Remove. case_decide; [eauto|].
  destruct (remove (components path) fs); eauto.
Qed.






End OnTheHostCreate.

(** C2 on an empty root for the report that [df] prints. *)
Lemma C2_witness :
  find ["mnt"; "x"] (Dir perm_0755 ∅) = inl ENOENT
  /\ oneLine "1K-blocks"
  /\ TrimSpace (line_then "    20480" "") = "20480"
  /\ exists fs',
      createFilesystem (H := plainQuote)
        (osSource (printing (report "20480")) "/var/lib/juju/storage")
        {| ParamsTag := "filesystem-0"; ParamsSize := 10;
           Attachment := Some {| AttMachine := "0"; AttPath := "/mnt/x" |} |}
        (Dir perm_0755 ∅)
      = (Ret ({| Tag := "filesystem-0"; Size := 20 |},
              {| AFilesystem := "filesystem-0"; Machine := "0"; Path := "/mnt/x" |}, None),
         fs')
      /\ find ["mnt"; "x"] fs' = inr (Dir perm_0755 ∅).
Proof.
  assert (oneLine "1K-blocks") as Hone.
  { apply SplitN_oneLine. by vm_compute. }
  split_and!; [done|done|by vm_compute|].
  apply (C2_scenario_measured_size (H := plainQuote) (printing (report "20480"))
           "/var/lib/juju/storage" "filesystem-0" (Dir perm_0755 ∅)
           "1K-blocks" (line_then "    20480" ""));
    [done|done|done|by vm_compute].
Defined.



(** *** [CreateFilesystems] *)

Section Batch.
Context `{Quoting}.
Variable s : rootfsFilesystemSource.


End Batch.



(** *** The scenarios of the specification and two edges *)

(** Scenario B: a report of 5120 blocks for a request of 10 MiB. *)
Example scenario_B_too_small :
  let s := osSource (printing (report "5120")) "/var/lib/juju/storage" in
  let att := {| AttMachine := "0"; AttPath := "/mnt/x" |} in
  let params := {| ParamsTag := "filesystem-0"; ParamsSize := 10; Attachment := Some att |} in
  createFilesystem (H := plainQuote) s params (Dir perm_0755 ∅)
  = (Ret (zeroFilesystem, attachmentOf params att,
          Some (New "filesystem is not big enough (5M < 10M)")),
     Dir perm_0755 (<["mnt" := Dir perm_0755 ∅]> ∅)).
Proof. by vm_compute. Qed.

(** Scenario C: no attachment. *)
Example scenario_C_no_attachment (fs : FS) :
  createFilesystem (H := plainQuote) (osSource (printing "") "/var/lib/juju/storage")
    {| ParamsTag := "filesystem-0"; ParamsSize := 10; Attachment := None |} fs
  = (Ret (zeroFilesystem, zeroAttachment,
          Some (Trace (NotSupportedf "creating filesystem without machine attachment"))), fs).
Proof. reflexivity. Qed.

(** Scenario D: the target holds one file. *)
Example scenario_D_not_empty :
  let fs := Dir perm_0755 (<["mnt" := Dir perm_0755 (<["x" := Dir perm_0755 (<["f" := File]> ∅)]> ∅)]> ∅) in
  validatePath (H := plainQuote) (osSource (printing "") "/var/lib/juju/storage") "/mnt/x" fs
  = (Ret (Some (New "path must be empty")), fs).
Proof. by vm_compute. Qed.

(** A failing request for the directory of an earlier success of the same
    call removes that directory in its own cleanup. *)
Example same_path_cleanup :
  let s := osSource (printing (report "20480")) "/var/lib/juju/storage" in
  let request size :=
    {| ParamsTag := "filesystem-0"; ParamsSize := size;
       Attachment := Some {| AttMachine := "0"; AttPath := "/mnt/a" |} |} in
  CreateFilesystems (H := plainQuote) s [request 10; request 30] (Dir perm_0755 ∅)
  = (Ret (None, None,
          Some (Annotate (New "filesystem is not big enough (20M < 30M)")
                  "creating filesystem")),
     Dir perm_0755 (<["mnt" := Dir perm_0755 ∅]> ∅)).
Proof. by vm_compute. Qed.

End RootfsFacts.

(** ** Properties of the constraint translation *)

Module MaasFacts.
Import Go Errors Maas MaasNotions.

(** *** The signed partition *)

Lemma parse_loop raw : forall ps ns,
  fold_left
    (fun '(positives, negatives) value =>
       if decide (value = "" \/ value = "^") then (positives, negatives)
       else if HasPrefix value "^"
            then (positives, negatives ++ [TrimPrefix value "^"])
            else (positives ++ [value], negatives))
    raw (ps, ns)
  = (ps ++ filter positive raw, ns ++ (strip <$> filter negative raw)).
Proof.
  induction raw as [|v raw IH]; intros ps ns; simpl.
  - by rewrite !app_nil_r.
  - destruct (decide (v = "" \/ v = "^")) as [Hd|Hd].
    + rewrite IH. rewrite !filter_cons_False; [done| |].
      * unfold negative, kept, marker. intros [[??] _]. tauto.
      * unfold positive, kept, marker. intros [[??] _]. tauto.
    + assert (kept v) by (unfold kept, marker; tauto).
      destruct (HasPrefix v "^") eqn:Hp; rewrite IH.
      * rewrite (filter_cons_True negative) by done.
        rewrite (filter_cons_False positive).
        2:{ unfold positive, marker. rewrite Hp. intros [_ ?]. done. }
        simpl. by rewrite <- app_assoc.
      * rewrite (filter_cons_True positive) by done.
        rewrite (filter_cons_False negative).
        2:{ unfold negative, marker. rewrite Hp. intros [_ ?]. done. }
        by rewrite <- app_assoc.
Qed.

Lemma parseDelimitedValues_filter raw :
  parseDelimitedValues raw = (filter positive raw, strip <$> filter negative raw).
Proof. unfold parseDelimitedValues. by rewrite parse_loop. Qed.

Lemma exclusive_exhaustive v :
  (kept v <-> positive v \/ negative v) /\ ~ (positive v /\ negative v).
Proof.
  unfold positive, negative. split; [split|].
  - intros Hk. destruct (HasPrefix v marker); tauto.
  - tauto.
  - intros [[_ H1] [_ H2]]. congruence.
Qed.

Lemma filter_split_length raw :
  (length (filter positive raw) + length (filter negative raw))%nat
  = length (filter kept raw).
Proof.
  induction raw as [|v raw IH]; [done|].
  destruct (exclusive_exhaustive v) as [Hk Hx].
  destruct (decide (positive v)) as [Hp|Hp]; destruct (decide (negative v)) as [Hn|Hn].
  - tauto.
  - rewrite (filter_cons_True positive), (filter_cons_False negative),
      (filter_cons_True kept) by tauto. simpl. lia.
  - rewrite (filter_cons_False positive), (filter_cons_True negative),
      (filter_cons_True kept) by tauto. simpl. lia.
  - rewrite (filter_cons_False positive), (filter_cons_False negative),
      (filter_cons_False kept) by tauto. done.
Qed.

(** *** Parameters *)

Lemma lookup_Add key value (v : Values) k :
  Add key value v !! k
  = if decide (k = key) then Some (default [] (v !! k) ++ [value]) else v !! k.
Proof.
  unfold Add. destruct (decide (k = key)) as [->|Hne].
  - by rewrite lookup_insert_eq.
  - by rewrite lookup_insert_ne.
Qed.

Lemma dom_Add key value (v : Values) : dom (Add key value v) = {[key]} ∪ dom v.
Proof. unfold Add. by rewrite dom_insert_L. Qed.

Lemma dom_addWhen elems key sep (v : Values) :
  dom (addWhen elems key sep v) ⊆ {[key]} ∪ dom v.
Proof. destruct elems; simpl; [set_solver|]. rewrite dom_Add. set_solver. Qed.

Lemma convertTagsToParams_addWhen params raw :
  convertTagsToParams params (Some raw)
  = addWhen (strip <$> filter negative raw) "not_tags" ","
      (addWhen (filter positive raw) "tags" "," params).
Proof.
  unfold convertTagsToParams.
  destruct (decide (length raw = 0%nat)) as [Hz|Hz].
  - destruct raw; [done|discriminate].
  - rewrite parseDelimitedValues_filter.
    destruct (filter positive raw), (filter negative raw); done.
Qed.


(** *** Spaces and bindings *)

Lemma appendBindings_imap excluded spaces : forall bindings base,
  appendBindings excluded spaces (bindings, N.of_nat base mod 2 ^ 64)
  = (bindings ++ imap (binding excluded base) spaces,
     N.of_nat (base + length spaces) mod 2 ^ 64).
Proof.
  induction spaces as [|space spaces IH]; intros bindings base.
  - unfold appendBindings. cbn [fold_left imap length].
    by rewrite app_nil_r, Nat.add_0_r.
  - unfold appendBindings in *. cbn [fold_left imap length].
    replace (uint_succ (N.of_nat base mod 2 ^ 64)) with (N.of_nat (S base) mod 2 ^ 64).
    2:{ unfold uint_succ. rewrite N.Div0.add_mod_idemp_l. f_equal. lia. }
    rewrite IH, <- app_assoc. f_equal.
    + cbn [app]. f_equal. f_equal.
      * unfold binding. by rewrite Nat.add_0_r.
      * apply imap_ext. intros i x _. unfold binding. simpl. do 3 f_equal. lia.
    + f_equal. lia.
Qed.

Lemma convertSpacesToBindings_imap spaces :
  convertSpacesToBindings (Some spaces)
  = imap (binding false 0) (filter positive spaces)
    ++ imap (binding true (length (filter positive spaces)))
         (strip <$> filter negative spaces).
Proof.
  unfold convertSpacesToBindings.
  destruct (decide (length spaces = 0%nat)) as [Hz|Hz].
  - destruct spaces; [done|discriminate].
  - rewrite parseDelimitedValues_filter.
    change 0 with (N.of_nat 0 mod 2 ^ 64) at 1.
    rewrite appendBindings_imap. cbn [app].
    rewrite appendBindings_imap. done.
Qed.

Lemma result_length_le spaces :
  (length (filter positive spaces) + length (strip <$> filter negative spaces)
   <= length spaces)%nat.
Proof. rewrite length_fmap, filter_split_length. apply length_filter. Qed.

Lemma binding_name_small excluded base i space :
  N.of_nat (base + i) < 2 ^ 64 ->
  Name (binding excluded base i space) = FormatUint (N.of_nat (base + i)).
Proof. intros Hlt. unfold binding. simpl. by rewrite N.mod_small. Qed.

Section Encoder.
Context `{Quoting}.

Lemma loop_inl bindings : forall positives negatives namesSet err,
  addInterfaces_loop bindings positives negatives namesSet = inl err ->
  exists msg, err = NewNotValid None msg.
Proof.
  induction bindings as [|b bindings IH]; intros ps ns S err; simpl; [done|].
  repeat case_decide; try (intros [= <-]; eauto; fail).
  destruct (IsExcluded b); apply IH.
Qed.

Lemma loop_inr bindings : forall positives negatives namesSet r,
  addInterfaces_loop bindings positives negatives namesSet = inr r ->
  Forall valid bindings /\ NoDup (Name <$> bindings)
  /\ (forall b, b ∈ bindings -> Name b ∉ namesSet).
Proof.
  induction bindings as [|b bindings IH]; intros ps ns S r; simpl.
  - intros _. split_and!; [constructor|constructor|].
    intros b Hb. by apply elem_of_nil in Hb.
  - repeat case_decide; try done.
    intros Hloop.
    assert (Forall valid bindings /\ NoDup (Name <$> bindings)
            /\ (forall b', b' ∈ bindings -> Name b' ∉ {[Name b]} ∪ S)) as (Hv & Hnd & Hnot).
    { destruct (IsExcluded b); eapply IH; exact Hloop. }
    split_and!.
    + constructor; [done|done].
    + constructor; [|done]. intros Hin.
      apply list_elem_of_fmap in Hin as (b' & Heq & Hb').
      specialize (Hnot b' Hb'). set_solver.
    + intros b' Hb'. apply elem_of_cons in Hb' as [->|Hb']; [done|].
      specialize (Hnot b' Hb'). set_solver.
Qed.

Lemma loop_prefix pre : forall positives negatives namesSet,
  Forall valid pre -> NoDup (Name <$> pre) ->
  (forall b, b ∈ pre -> Name b ∉ namesSet) ->
  exists positives' negatives', forall rest,
    addInterfaces_loop (pre ++ rest) positives negatives namesSet
    = addInterfaces_loop rest positives' negatives'
        (list_to_set (Name <$> pre) ∪ namesSet).
Proof.
  induction pre as [|b pre IH]; intros ps ns S Hv Hnd Hnot.
  - exists ps, ns. intros rest. simpl. f_equal. set_solver.
  - apply Forall_cons in Hv as [[Hname Hspace] Hv].
    rewrite fmap_cons in Hnd. apply NoDup_cons in Hnd as [Hfresh Hnd].
    assert (Name b ∉ S) as HbS by (apply Hnot; left).
    assert (forall b', b' ∈ pre -> Name b' ∉ {[Name b]} ∪ S) as Hnot'.
    { intros b' Hb'. apply not_elem_of_union. split.
      - intros Heq%elem_of_singleton. apply Hfresh. rewrite <- Heq.
        apply list_elem_of_fmap. eauto.
      - apply Hnot. by right. }
    destruct (IsExcluded b) eqn:Hex.
    + destruct (IH ps (ns ++ ["space:" +:+ SpaceProviderId b]) ({[Name b]} ∪ S) Hv Hnd Hnot')
        as (ps' & ns' & Heq).
      exists ps', ns'. intros rest. simpl.
      rewrite !decide_False by done. rewrite Hex, Heq. f_equal. set_solver.
    + destruct (IH (ps ++ [Name b +:+ ":space=" +:+ SpaceProviderId b]) ns
                  ({[Name b]} ∪ S) Hv Hnd Hnot')
        as (ps' & ns' & Heq).
      exists ps', ns'. intros rest. simpl.
      rewrite !decide_False by done. rewrite Hex, Heq. f_equal. set_solver.
Qed.

Lemma loop_total bindings positives negatives namesSet :
  Forall valid bindings -> NoDup (Name <$> bindings) ->
  (forall b, b ∈ bindings -> Name b ∉ namesSet) ->
  exists r, addInterfaces_loop bindings positives negatives namesSet = inr r.
Proof.
  intros Hv Hnd Hnot.
  destruct (loop_prefix bindings positives negatives namesSet Hv Hnd Hnot)
    as (ps & ns & Heq).
  specialize (Heq []). rewrite app_nil_r in Heq. rewrite Heq. simpl. eauto.
Qed.

Lemma addInterfaces_error params bindings err :
  (addInterfaces params bindings).2 = Some err ->
  addInterfaces params bindings = (params, Some err)
  /\ exists msg, err = NewNotValid None msg.
Proof.
  unfold addInterfaces. case_decide; [done|].
  destruct (addInterfaces_loop bindings [] [] ∅) as [e|[ps ns]] eqn:Hloop; simpl.
  - intros [= ->]. split; [done|]. by eapply loop_inl.
  - done.
Qed.

Lemma addInterfaces_invalid params bindings :
  ~ (Forall valid bindings /\ NoDup (Name <$> bindings)) ->
  exists msg, addInterfaces params bindings = (params, Some (NewNotValid None msg)).
Proof.
  intros Hbad. unfold addInterfaces. case_decide as Hlen.
  - destruct bindings; [|discriminate]. exfalso. apply Hbad. split; constructor.
  - destruct (addInterfaces_loop bindings [] [] ∅) as [e|r] eqn:Hloop.
    + apply loop_inl in Hloop as [msg ->]. eauto.
    + apply loop_inr in Hloop as (Hv & Hnd & _). tauto.
Qed.

(** C5.  The interface-binding encoder fails with a not-valid error when a
    binding has an empty name or an empty space identifier or when two
    bindings share a name; the first duplicate met is reported with its
    name; every failure leaves the parameters as they were; and a list
    without such a defect is encoded without error. *)
Theorem C5_addInterfaces_all_or_nothing (params : Values) (bindings : list interfaceBinding) :
  ((exists b, b ∈ bindings /\ (Name b = "" \/ SpaceProviderId b = ""))
   \/ ~ NoDup (Name <$> bindings) ->
   exists msg,
     addInterfaces params bindings = (params, Some (NewNotValid None msg))
     /\ IsNotValid (NewNotValid None msg) = true)
  /\ (forall pre b post,
        bindings = pre ++ b :: post ->
        Forall valid pre -> NoDup (Name <$> pre) -> valid b ->
        Name b ∈ Name <$> pre ->
        addInterfaces params bindings
        = (params, Some (NewNotValid None
                           ("duplicated interface binding " +:+ Quote (Name b)))))
  /\ (forall err,
        (addInterfaces params bindings).2 = Some err ->
        (addInterfaces params bindings).1 = params /\ IsNotValid err = true)
  /\ (Forall valid bindings -> NoDup (Name <$> bindings) ->
      (addInterfaces params bindings).2 = None).
Proof.
  split_and!.
  - intros Hbad.
    destruct (addInterfaces_invalid params bindings) as [msg Hmsg]; [|by eauto].
    intros [Hv Hnd]. destruct Hbad as [(b & Hb & Hempty)|Hdup]; [|done].
    rewrite Forall_forall in Hv. destruct (Hv b Hb). tauto.
  - intros pre b post -> Hv Hnd [Hname Hspace] Hdup.
    unfold addInterfaces. rewrite decide_False by (rewrite length_app; simpl; lia).
    destruct (loop_prefix pre [] [] ∅ Hv Hnd) as (ps & ns & Heq); [set_solver|].
    rewrite Heq. simpl. rewrite !decide_False by done.
    rewrite decide_True; [done|]. set_solver.
  - intros err Herr. apply addInterfaces_error in Herr as [Heq [msg ->]].
    by rewrite Heq.
  - intros Hv Hnd. unfold addInterfaces. case_decide; [done|].
    destruct (loop_total bindings [] [] ∅ Hv Hnd) as [[ps ns] ->]; [set_solver|done].
Qed.

(** C6.  The signed space list becomes the bindings of its positive entries
    followed by the bindings of its negative entries, each group in the
    order met, numbered from zero in decimal; the list [s1, ^s2] gives the
    two bindings of the scenario, which encode to [interfaces=0:space=s1]
    and [not_networks=space:s2]. *)
Theorem C6_spaces_to_bindings :
  (forall spaces,
     convertSpacesToBindings (Some spaces)
     = imap (binding false 0) (filter positive spaces)
       ++ imap (binding true (length (filter positive spaces)))
            (strip <$> filter negative spaces))
  /\ (forall spaces i b,
        N.of_nat (length spaces) < 2 ^ 63 ->
        convertSpacesToBindings (Some spaces) !! i = Some b ->
        Name b = FormatUint (N.of_nat i))
  /\ convertSpacesToBindings (Some ["s1"; "^s2"])
     = [ {| Name := "0"; SpaceProviderId := "s1"; IsExcluded := false |};
         {| Name := "1"; SpaceProviderId := "s2"; IsExcluded := true |} ]
  /\ addInterfaces ∅ (convertSpacesToBindings (Some ["s1"; "^s2"]))
     = (<["not_networks" := ["space:s2"]]> (<["interfaces" := ["0:space=s1"]]> ∅), None).
Proof.
  split_and!.
  - apply convertSpacesToBindings_imap.
  - intros spaces i b Hlen. rewrite convertSpacesToBindings_imap.
    pose proof (result_length_le spaces) as Hle.
    destruct (decide (i < length (filter positive spaces))%nat) as [Hi|Hi].
    + rewrite lookup_app_l by (by rewrite length_imap).
      rewrite list_lookup_imap. intros [space [_ ->]]%fmap_Some.
      rewrite binding_name_small; [done|]. simpl. lia.
    + rewrite lookup_app_r by (rewrite length_imap; lia).
      rewrite length_imap, list_lookup_imap.
      intros [space [Hl ->]]%fmap_Some.
      apply lookup_lt_Some in Hl.
      rewrite binding_name_small; [do 2 f_equal; lia|]. lia.
  - by vm_compute.
  - by vm_compute.
Qed.

End Encoder.

(** C5 for three bindings of which the third repeats the name of the
    first. *)
Lemma C5_witness :
  let bindings :=
    [ {| Name := "eth0"; SpaceProviderId := "s1"; IsExcluded := false |};
      {| Name := "eth1"; SpaceProviderId := "s2"; IsExcluded := true |};
      {| Name := "eth0"; SpaceProviderId := "s3"; IsExcluded := false |} ] in
  ~ NoDup (Name <$> bindings)
  /\ addInterfaces (H := plainQuote) ∅ bindings
     = (∅, Some (NewNotValid None
                   ("duplicated interface binding " +:+ plainQuote "eth0"))).
Proof.
  intros bindings.
  assert (~ NoDup (Name <$> bindings)) as Hdup.
  { intros Hnd. apply NoDup_cons in Hnd as [Hfresh _]. apply Hfresh. set_solver. }
  split; [done|].
  destruct (C5_addInterfaces_all_or_nothing (H := plainQuote) ∅ bindings)
    as (_ & Hfirst & _).
  apply (Hfirst [ {| Name := "eth0"; SpaceProviderId := "s1"; IsExcluded := false |};
                  {| Name := "eth1"; SpaceProviderId := "s2"; IsExcluded := true |} ]
           {| Name := "eth0"; SpaceProviderId := "s3"; IsExcluded := false |} []).
  - done.
  - repeat constructor; done.
  - cbn. repeat constructor; set_solver.
  - done.
  - set_solver.
Defined.

(** C6 at the last binding of a list of three spaces. *)
Lemma C6_witness :
  N.of_nat (length ["s1"; "^s2"; "s3"]) < 2 ^ 63
  /\ convertSpacesToBindings (Some ["s1"; "^s2"; "s3"]) !! 2%nat
     = Some {| Name := "2"; SpaceProviderId := "s2"; IsExcluded := true |}
  /\ Name {| Name := "2"; SpaceProviderId := "s2"; IsExcluded := true |}
     = FormatUint (N.of_nat 2).
Proof.
  split_and!; [done|by vm_compute|].
  destruct (C6_spaces_to_bindings (H := plainQuote)) as (_ & Hnames & _).
  by apply (Hnames ["s1"; "^s2"; "s3"] 2%nat).
Defined.

(** *** cpu-power *)

Lemma convertConstraints_dom cons :
  dom (convertConstraints cons).1 ⊆ {["arch"; "cpu_count"; "mem"; "tags"; "not_tags"]}.
Proof.
  unfold convertConstraints. cbn [fst].
  destruct (Tags cons) as [tags|].
  - rewrite convertTagsToParams_addWhen.
    etrans; [apply dom_addWhen|].
    apply union_least; [set_solver|].
    etrans; [apply dom_addWhen|].
    apply union_least; [set_solver|].
    destruct (Arch cons), (CpuCores cons), (Mem cons);
      rewrite ?dom_Add, ?dom_empty_L; set_solver.
  - simpl. destruct (Arch cons), (CpuCores cons), (Mem cons);
      rewrite ?dom_Add, ?dom_empty_L; set_solver.
Qed.

(** C8.  With the cpu-power field set, the translation returns its
    parameters, the same as with the field unset, under no key but [arch],
    [cpu_count], [mem], [tags] and [not_tags], so none for cpu-power, and
    sends one warning to the logger. *)
Theorem C8_cpu_power_dropped (cons : Value) (power : N) :
  CpuPower cons = Some power ->
  exists params,
    convertConstraints cons
    = (params, ["ignoring unsupported constraint 'cpu-power'"])
    /\ params
       = (convertConstraints
            {| Arch := Arch cons; CpuCores := CpuCores cons; Mem := Mem cons;
               CpuPower := None; Tags := Tags cons; Spaces := Spaces cons |}).1
    /\ dom params ⊆ {["arch"; "cpu_count"; "mem"; "tags"; "not_tags"]}
    /\ ("cpu-power" ∉ dom params) /\ ("cpu_power" ∉ dom params).
Proof.
  intros Hpower.
  pose proof (convertConstraints_dom cons) as Hdom.
  exists (convertConstraints cons).1. split_and!.
  - unfold convertConstraints. rewrite Hpower. reflexivity.
  - reflexivity.
  - done.
  - intros Hin. apply Hdom in Hin. set_solver.
  - intros Hin. apply Hdom in Hin. set_solver.
Qed.

(** C8 for a constraint set with every field but the spaces. *)
Lemma C8_witness :
  let cons :=
    {| Arch := Some "amd64"; CpuCores := Some 4; Mem := Some 2048;
       CpuPower := Some 100; Tags := Some ["a"; "^b"]; Spaces := None |} in
  CpuPower cons = Some 100
  /\ exists params,
      convertConstraints cons = (params, ["ignoring unsupported constraint 'cpu-power'"])
      /\ dom params ⊆ {["arch"; "cpu_count"; "mem"; "tags"; "not_tags"]}.
Proof.
  intros cons. split; [done|].
  destruct (C8_cpu_power_dropped cons 100 eq_refl) as (params & Heq & _ & Hdom & _).
  by exists params.
Defined.

End MaasFacts.

(** ** Decimal numbers and white space *)

Module GoFacts.
Import Go.

(** A text without white space. *)
Fixpoint solid (s : string) : Prop :=
  match s with
  | EmptyString => True
  | String c s' => isSpace c = false /\ solid s'
  end.




Lemma pretty_go_length x : forall s,
  (String.length s <= String.length (pretty_N_go x s))%nat.
Proof.
  induction (N.lt_wf_0 x) as [x _ IH]; intros s.
  destruct (decide (x = 0)) as [->|Hnz]; [by rewrite pretty_N_go_0|].
  rewrite pretty_N_go_step by lia.
  etrans; [|apply IH; apply N.div_lt; lia]. simpl. lia.
Qed.

Lemma FormatUint_nonempty n : FormatUint n <> "".
Proof.
  unfold FormatUint, pretty, pretty_N. case_decide as Hn; [done|].
  rewrite pretty_N_go_step by lia. intros Hempty.
  pose proof (pretty_go_length (n / 10) (String (pretty_N_char (n mod 10)) "")) as Hlen.
  rewrite Hempty in Hlen. simpl in Hlen. lia.
Qed.




Lemma trimLeft_solid s : s <> "" -> solid s -> trimLeft s = s.
Proof. destruct s as [|c s]; [done|]. intros _ [Hc _]. simpl. by rewrite Hc. Qed.




End GoFacts.

(** ** More properties of the rootfs provider *)

Module RootfsMore.
Import Go Errors Fs Rootfs RootfsNotions RootfsProvider RootfsFacts GoFacts.

(** *** The provider *)

(** X8.  [FilesystemSource] gives a source exactly when the configuration
    holds a storage directory that is a string and not empty: the source
    then works on the real directory functions with the command runner of
    the provider and that directory; otherwise the error says that the
    storage directory is not specified.  [VolumeSource] is never
    supported. *)
Theorem FilesystemSource_needs_storage_dir
    (Config : Type) (ValueString : Config -> string -> string * bool)
    (ConfigStorageDir : string) (p : rootfsProvider) (cfg : Config) :
  (forall dir, ValueString cfg ConfigStorageDir = (dir, true) -> dir <> "" ->
     FilesystemSource Config ValueString ConfigStorageDir p cfg
     = (Some {| dirs := osDirFuncs; run := provider_run p; storageDir := dir |}, None))
  /\ ((forall dir, ValueString cfg ConfigStorageDir = (dir, true) -> dir = "") ->
      FilesystemSource Config ValueString ConfigStorageDir p cfg
      = (None, Some (New "storage directory not specified")))
  /\ (exists err, VolumeSource Config cfg = (None, Some err) /\ IsNotSupported err = true).
Proof.
  unfold FilesystemSource, validateFullConfig, ValidateConfig, VolumeSource.
  split_and!.
  - intros dir -> Hdir. cbn. by rewrite bool_decide_eq_false_2.
  - intros Hnone. destruct (ValueString cfg ConfigStorageDir) as [dir [|]]; [|done].
    rewrite (Hnone dir eq_refl). done.
  - eauto.
Qed.

(** *** Steps of [createFilesystem] *)

Section Create.
Context `{Quoting}.
Variable s : rootfsFilesystemSource.

Lemma createFilesystem_unmeasured params att fs fs1 fs2 out err :
  Attachment params = Some att -> AttPath att <> "" ->
  validatePath s (AttPath att) fs = (Ret None, fs1) ->
  run s "df" ["--output=size"; AttPath att] fs1 = (Ret (out, Some err), fs2) ->
  createFilesystem s params fs
  = (Ret (zeroFilesystem, attachmentOf params att, Some (Annotate err "getting size")),
     (os_Remove (AttPath att) fs2).2).
Proof.
  intros Hatt Hpath Hvalid Hrun.
  unfold createFilesystem, ValidateFilesystemParams. rewrite Hatt.
  rewrite decide_False by done.
  unfold mbind, M_bind, bind at 1. rewrite Hvalid.
  unfold bind at 1. rewrite Hrun.
  unfold bind. destruct (os_Remove_Ret (AttPath att) fs2) as [e He]. by rewrite He.
Qed.

Lemma createFilesystem_success params fs filesystem attachment fs' :
  createFilesystem s params fs = (Ret (filesystem, attachment, None), fs') ->
  exists att fs1 out line blocks,
    Attachment params = Some att /\ AttPath att <> ""
    /\ validatePath s (AttPath att) fs = (Ret None, fs1)
    /\ run s "df" ["--output=size"; AttPath att] fs1 = (Ret (out, None), fs')
    /\ SplitN out newline 2 !! 1%nat = Some line
    /\ ParseUint (TrimSpace line) = (blocks, None)
    /\ (blocks / 1024 <? ParamsSize params) = false
    /\ filesystem = {| Tag := ParamsTag params; Size := blocks / 1024 |}
    /\ attachment = attachmentOf params att.
Proof.
  intros Hcreate.
  destruct (Attachment params) as [att|] eqn:Hatt.
  2:{ unfold createFilesystem, ValidateFilesystemParams in Hcreate.
      by rewrite Hatt in Hcreate. }
  destruct (decide (AttPath att = "")) as [Hpath|Hpath].
  { unfold createFilesystem, ValidateFilesystemParams in Hcreate.
    rewrite Hatt in Hcreate. by rewrite decide_True in Hcreate. }
  destruct (validatePath s (AttPath att) fs) as [[[verr|]|msg] fs1] eqn:Hvalid.
  1,3: unfold createFilesystem, ValidateFilesystemParams in Hcreate;
    rewrite Hatt, decide_False in Hcreate by done;
    unfold mbind, M_bind, bind at 1 in Hcreate; by rewrite Hvalid in Hcreate.
  destruct (run s "df" ["--output=size"; AttPath att] fs1) as [[[out [rerr|]]|msg] fs2] eqn:Hrun.
  - by rewrite (createFilesystem_unmeasured params att fs fs1 fs2 out rerr) in Hcreate.
  - rewrite (createFilesystem_measured s params att fs fs1 fs2 out) in Hcreate by done.
    destruct (SplitN out newline 2 !! 1%nat) as [line|] eqn:Hline; [|done].
    destruct (ParseUint (TrimSpace line)) as [blocks [perr|]] eqn:Hparse; [done|].
    destruct (blocks / 1024 <? ParamsSize params) eqn:Hsmall; [done|].
    injection Hcreate as <- <- <-.
    exists att, fs1, out, line, blocks. by split_and!.
  - unfold createFilesystem, ValidateFilesystemParams in Hcreate.
    rewrite Hatt, decide_False in Hcreate by done.
    unfold mbind, M_bind, bind at 1 in Hcreate. rewrite Hvalid in Hcreate.
    unfold bind at 1 in Hcreate. by rewrite Hrun in Hcreate.
Qed.

Lemma createFilesystem_failure params fs filesystem attachment err fs' :
  createFilesystem s params fs = (Ret (filesystem, attachment, Some err), fs') ->
  filesystem = zeroFilesystem.
Proof.
  intros Hcreate.
  unfold createFilesystem, ValidateFilesystemParams in Hcreate.
  destruct (Attachment params) as [att|] eqn:Hatt; [|by injection Hcreate as <-].
  case_decide as Hpath; [by injection Hcreate as <-|].
  unfold mbind, M_bind in Hcreate. unfold bind at 1 in Hcreate.
  destruct (validatePath s (AttPath att) fs) as [[[verr|]|msg] fs1];
    [by injection Hcreate as <-| |done].
  unfold bind at 1 in Hcreate.
  destruct (run s "df" ["--output=size"; AttPath att] fs1) as [[[out [rerr|]]|msg] fs2];
    [| |done].
  - unfold bind in Hcreate.
    destruct (os_Remove_Ret (AttPath att) fs2) as [e He]. rewrite He in Hcreate.
    by injection Hcreate as <-.
  - destruct (SplitN out "010" 2 !! 1%nat) as [line|]; [|done].
    destruct (ParseUint (TrimSpace line)) as [blocks [perr|]].
    + unfold bind in Hcreate.
      destruct (os_Remove_Ret (AttPath att) fs2) as [e He]. rewrite He in Hcreate.
      by injection Hcreate as <-.
    + destruct (blocks / 1024 <? ParamsSize params); [|done].
      unfold bind in Hcreate.
      destruct (os_Remove_Ret (AttPath att) fs2) as [e He]. rewrite He in Hcreate.
      by injection Hcreate as <-.
Qed.

(** X9.  What [createFilesystem] returns: with no error, the filesystem has
    the tag of the request and a size that is at least the requested one,
    and the attachment is the one of the request; with an error, the
    filesystem is the zero value. *)
Theorem createFilesystem_result params fs filesystem attachment err fs' :
  createFilesystem s params fs = (Ret (filesystem, attachment, err), fs') ->
  match err with
  | None =>
      Tag filesystem = ParamsTag params
      /\ ParamsSize params <= Size filesystem
      /\ exists att, Attachment params = Some att /\ AttPath att <> ""
                     /\ attachment = attachmentOf params att
  | Some _ => filesystem = zeroFilesystem
  end.
Proof.
  destruct err as [err|]; [apply createFilesystem_failure|].
  intros (att & fs1 & out & line & blocks & Hatt & Hpath & _ & _ & _ & _ & Hsize & -> & ->)
    %createFilesystem_success.
  apply N.ltb_ge in Hsize. split_and!; [done|done|eauto].
Qed.

End Create.

(** X9 on an empty root with a report of 20480 blocks. *)
Lemma createFilesystem_result_witness :
  let s := osSource (printing (report "20480")) "/var/lib/juju/storage" in
  let att := {| AttMachine := "0"; AttPath := "/mnt/x" |} in
  let params := {| ParamsTag := "filesystem-0"; ParamsSize := 10; Attachment := Some att |} in
  let fs1 := Dir perm_0755 (<["mnt" := Dir perm_0755 (<["x" := Dir perm_0755 ∅]> ∅)]> ∅) in
  createFilesystem (H := plainQuote) s params (Dir perm_0755 ∅)
  = (Ret ({| Tag := "filesystem-0"; Size := 20 |}, attachmentOf params att, None), fs1)
  /\ 10 <= Size {| Tag := "filesystem-0"; Size := 20 |}.
Proof.
  intros s att params fs1.
  assert (createFilesystem (H := plainQuote) s params (Dir perm_0755 ∅)
          = (Ret ({| Tag := "filesystem-0"; Size := 20 |}, attachmentOf params att, None), fs1))
    as Hcreate by (by vm_compute).
  split; [done|].
  by destruct (createFilesystem_result (H := plainQuote) s params _ _ _ None _ Hcreate)
    as (_ & Hsize & _).
Defined.

(** *** On the host *)

Section OnTheHost.
Context `{Quoting}.
Variable run : runCommandFunc.
Variable storageDir : string.

#[local] Abbreviation s := (osSource run storageDir).







End OnTheHost.





(** *** The batch *)

Section Batch.
Context `{Quoting}.
Variable s : rootfsFilesystemSource.

Lemma CreateFilesystems_loop_cases args : forall fs filesystems attachments r fs',
  CreateFilesystems_loop s args filesystems attachments fs = (Ret r, fs') ->
  (exists results,
     r = (Some (filesystems ++ results.*1), Some (attachments ++ results.*2), None)
     /\ served s args fs results fs')
  \/ (exists pre arg post results fs_k filesystem attachment err,
        args = pre ++ arg :: post
        /\ served s pre fs results fs_k
        /\ createFilesystem s arg fs_k = (Ret (filesystem, attachment, Some err), fs')
        /\ r = (None, None, Some (Annotate err "creating filesystem"))).
Proof.
  induction args as [|arg args IH]; intros fs fss atts r fs' Hloop.
  - injection Hloop as <- <-. left. exists []. cbn. rewrite !app_nil_r.
    split; [done|constructor].
  - cbn [CreateFilesystems_loop] in Hloop. unfold mbind, M_bind, bind in Hloop.
    destruct (createFilesystem s arg fs) as [[[[f a] [err|]]|msg] fs1] eqn:Hcreate;
      [| |done].
    + injection Hloop as <- <-. right.
      exists [], arg, args, [], fs, f, a, err. split_and!; [done|constructor|done|done].
    + destruct (IH _ _ _ _ _ Hloop)
        as [(results & -> & Hserved)
           |(pre & arg' & post & results & fs_k & f' & a' & err & -> & Hserved & Hfail & ->)].
      * left. exists ((f, a) :: results). cbn. rewrite <- !app_assoc.
        split; [done|]. by econstructor.
      * right. exists (arg :: pre), arg', post, ((f, a) :: results), fs_k, f', a', err.
        split_and!; [done|by econstructor|done|done].
Qed.

Lemma served_results args fs results fs' :
  served s args fs results fs' ->
  Forall2 (fun arg result =>
             Tag result.1 = ParamsTag arg
             /\ ParamsSize arg <= Size result.1
             /\ AFilesystem result.2 = ParamsTag arg
             /\ exists att, Attachment arg = Some att
                            /\ Machine result.2 = AttMachine att
                            /\ Path result.2 = AttPath att)
          args results.
Proof.
  induction 1 as [fs|arg args fs f a fs1 results fs2 Hcreate Hserved IH]; constructor;
    [|done].
  apply createFilesystem_success in Hcreate
    as (att & fs0 & out & line & blocks & Hatt & _ & _ & _ & _ & _ & Hsize & -> & ->).
  apply N.ltb_ge in Hsize. cbn. split_and!; [done|done|done|eauto].
Qed.

(** X15.  Whenever [CreateFilesystems] returns, it returns either both
    lists and no error, with one filesystem and one attachment for each
    request in the order of the requests, each filesystem with the tag of
    its request and at least the requested size, or two nil lists and the
    annotated error of the first request that failed after the requests
    before it succeeded.  Without requests it returns two empty lists. *)
Theorem CreateFilesystems_all_or_nothing args (fs : FS) r fs' :
  CreateFilesystems s args fs = (Ret r, fs') ->
  (exists results,
     r = (Some results.*1, Some results.*2, None)
     /\ served s args fs results fs'
     /\ length results = length args
     /\ Forall2 (fun arg result =>
                   Tag result.1 = ParamsTag arg
                   /\ ParamsSize arg <= Size result.1
                   /\ AFilesystem result.2 = ParamsTag arg
                   /\ exists att, Attachment arg = Some att
                                  /\ Machine result.2 = AttMachine att
                                  /\ Path result.2 = AttPath att)
          args results)
  \/ (exists pre arg post results fs_k filesystem attachment err,
        args = pre ++ arg :: post
        /\ served s pre fs results fs_k
        /\ createFilesystem s arg fs_k = (Ret (filesystem, attachment, Some err), fs')
        /\ r = (None, None, Some (Annotate err "creating filesystem"))).
Proof.
  intros [(results & -> & Hserved)|Hfailed]%CreateFilesystems_loop_cases; [left|by right].
  exists results. pose proof (served_results _ _ _ _ Hserved) as Hall.
  split_and!; [done|done| |done]. symmetry. by eapply Forall2_length.
Qed.

End Batch.

(** X15 for two requests on an empty root. *)
Lemma CreateFilesystems_all_or_nothing_witness :
  let s := osSource (printing (report "20480")) "/var/lib/juju/storage" in
  let request tag path :=
    {| ParamsTag := tag; ParamsSize := 10;
       Attachment := Some {| AttMachine := "0"; AttPath := path |} |} in
  let args := [request "filesystem-0" "/mnt/a"; request "filesystem-1" "/mnt/b"] in
  exists filesystems attachments fs',
    CreateFilesystems (H := plainQuote) s args (Dir perm_0755 ∅)
    = (Ret (Some filesystems, Some attachments, None), fs')
    /\ length filesystems = 2%nat /\ length attachments = 2%nat.
Proof.
  intros s request args.
  destruct (CreateFilesystems (H := plainQuote) s args (Dir perm_0755 ∅)) as [[r|msg] fs']
    eqn:Hcall; [|by vm_compute in Hcall].
  destruct (CreateFilesystems_all_or_nothing (H := plainQuote) s args _ r fs' Hcall)
    as [(results & -> & _ & Hlen & _)
       |(pre & arg & post & results & fs_k & f & a & err & _ & _ & _ & ->)].
  - exists results.*1, results.*2, fs'. by rewrite !length_fmap.
  - by vm_compute in Hcall.
Defined.

End RootfsMore.

(** ** More properties of the constraint translation *)

Module MaasMore.
Import Go Errors Maas MaasNotions MaasStorage MoreNotions MaasFacts GoFacts.

(** *** The marker *)

Lemma HasPrefix_marker v :
  HasPrefix v marker = true <-> exists rest, v = String "^" rest.
Proof.
  unfold HasPrefix, marker. destruct v as [|c v]; cbn [String.prefix].
  - split; [done|]. by intros [rest ?].
  - destruct (ascii_dec "^" c) as [<-|Hne].
    + split; [eauto|]. intros _. by destruct v.
    + split; [done|]. intros [rest [= -> _]]. done.
Qed.

Lemma strip_marker rest : strip (String "^" rest) = rest.
Proof.
  unfold strip, TrimPrefix, HasPrefix, marker. cbn [String.prefix].
  destruct (ascii_dec "^" "^"); [|done]. by destruct rest.
Qed.

Lemma negative_shape v : negative v <-> exists rest, v = String "^" rest /\ rest <> "".
Proof.
  unfold negative, kept. rewrite HasPrefix_marker. split.
  - intros [[_ Hbare] [rest ->]]. exists rest. split; [done|].
    intros ->. by apply Hbare.
  - intros (rest & -> & Hrest). split_and!; [done| |eauto].
    unfold marker. intros [= ->]. done.
Qed.

Lemma positive_shape v : positive v <-> v <> "" /\ HasPrefix v marker = false.
Proof.
  unfold positive, kept. split; [tauto|].
  intros [Hne Hprefix]. split_and!; [done| |done].
  intros ->. done.
Qed.

(** X1.  What [parseDelimitedValues] lets through: a positive is an entry
    of the input that is not empty and does not begin with the marker; a
    negative is a text that is not empty and stands in the input behind the
    marker; so neither subset ever holds an empty text. *)
Theorem parseDelimitedValues_members (raw : list string) :
  (forall p, p ∈ (parseDelimitedValues raw).1
             <-> p ∈ raw /\ p <> "" /\ HasPrefix p "^" = false)
  /\ (forall n, n ∈ (parseDelimitedValues raw).2
               <-> n <> "" /\ String "^" n ∈ raw)
  /\ ("" ∉ (parseDelimitedValues raw).1)
  /\ ("" ∉ (parseDelimitedValues raw).2).
Proof.
  rewrite parseDelimitedValues_filter. cbn [fst snd].
  assert (forall n, n ∈ strip <$> filter negative raw <-> n <> "" /\ String "^" n ∈ raw)
    as Hneg.
  { intros n. rewrite list_elem_of_fmap. split.
    - intros (v & -> & Hv). apply list_elem_of_filter in Hv as [Hv Hin].
      apply negative_shape in Hv as (rest & -> & Hrest).
      by rewrite strip_marker.
    - intros [Hn Hin]. exists (String "^" n). split; [by rewrite strip_marker|].
      apply list_elem_of_filter. split; [|done]. apply negative_shape. eauto. }
  assert (forall p, p ∈ filter positive raw <-> p ∈ raw /\ p <> "" /\ HasPrefix p "^" = false)
    as Hpos.
  { intros p. rewrite list_elem_of_filter, positive_shape. unfold marker. tauto. }
  split_and!; [done|done| |].
  - rewrite Hpos. tauto.
  - rewrite Hneg. tauto.
Qed.

(** *** What the encoders add *)

Lemma Add_ne key value (v : Values) : Add key value v <> v.
Proof.
  intros Heq. assert (Add key value v !! key = v !! key) as Hk by (by rewrite Heq).
  rewrite lookup_Add, decide_True in Hk by done.
  destruct (v !! key) as [old|]; [|done]. simpl in Hk.
  injection Hk as Hk. apply (f_equal length) in Hk.
  rewrite length_app in Hk. simpl in Hk. lia.
Qed.

Lemma lookup_addWhen elems key sep (v : Values) k :
  addWhen elems key sep v !! k
  = if decide (k = key /\ elems <> [])
    then Some (default [] (v !! k) ++ [Join elems sep])
    else v !! k.
Proof.
  destruct elems as [|e elems]; simpl.
  - by rewrite decide_False by tauto.
  - rewrite lookup_Add. destruct (decide (k = key)) as [->|Hne].
    + by rewrite decide_True.
    + by rewrite decide_False by tauto.
Qed.

(** X2.  [convertTagsToParams] leaves the parameters as they are exactly
    when there is no list of tags or every entry of the list is empty or
    the bare marker. *)
Theorem convertTagsToParams_unchanged (params : Values) (tags : option (list string)) :
  convertTagsToParams params tags = params
  <-> tags = None
      \/ exists raw, tags = Some raw /\ Forall (fun v => v = "" \/ v = "^") raw.
Proof.
  destruct tags as [raw|]; [|simpl; split; [by left|done]].
  rewrite convertTagsToParams_addWhen.
  assert (Forall (fun v => v = "" \/ v = "^") raw
          <-> filter positive raw = [] /\ filter negative raw = []) as Hall.
  { induction raw as [|v raw IH].
    - split; [done|constructor].
    - rewrite Forall_cons, IH.
      destruct (exclusive_exhaustive v) as [Hk Hx].
      destruct (decide (positive v)) as [Hp|Hp]; destruct (decide (negative v)) as [Hn|Hn];
        rewrite ?(filter_cons_True positive), ?(filter_cons_False positive),
          ?(filter_cons_True negative), ?(filter_cons_False negative) by done.
      + tauto.
      + split; [|intros [[=] _]]. intros [Hv _].
        destruct Hp as [[H1 H2] _]. unfold marker in H2. tauto.
      + split; [|intros [_ [=]]]. intros [Hv _].
        destruct Hn as [[H1 H2] _]. unfold marker in H2. tauto.
      + assert (v = "" \/ v = "^") as Hv.
        { destruct (decide (v = "")); [tauto|]. destruct (decide (v = "^")); [tauto|].
          exfalso. unfold kept, marker in Hk. tauto. }
        tauto. }
  split.
  - intros Heq. right. exists raw. split; [done|]. apply Hall.
    destruct (filter positive raw) as [|p ps] eqn:Hps.
    + split; [done|]. destruct (filter negative raw) as [|n ns]; [done|].
      simpl in Heq. by apply Add_ne in Heq.
    + exfalso.
      assert (addWhen (strip <$> filter negative raw) "not_tags" ","
                (addWhen (p :: ps) "tags" "," params) !! "tags"
              = params !! "tags") as Hk by (by rewrite Heq).
      rewrite !lookup_addWhen in Hk.
      rewrite (decide_False (P := _ /\ _)) in Hk by (intros [[=] _]).
      rewrite decide_True in Hk by done.
      destruct (params !! "tags") as [old|]; [|done]. simpl in Hk.
      injection Hk as Hk. apply (f_equal length) in Hk.
      rewrite length_app in Hk. simpl in Hk. lia.
  - intros [[=]|(raw' & [= <-] & [Hps Hns]%Hall)]. by rewrite Hps, Hns.
Qed.

(** X3.  In the parameters of [convertConstraints], the architecture, the
    number of cores and the memory stand under [arch], [cpu_count] and
    [mem] exactly when they are set, the numbers in decimal, and no key
    has more than one value. *)
Theorem convertConstraints_fields (cons : Value) :
  let params := (convertConstraints cons).1 in
  params !! "arch" = (fun arch => [arch]) <$> Arch cons
  /\ params !! "cpu_count" = (fun cores => [FormatUint cores]) <$> CpuCores cons
  /\ params !! "mem" = (fun mem => [FormatUint mem]) <$> Mem cons
  /\ (forall key values, params !! key = Some values -> length values = 1%nat).
Proof.
  cbn zeta. unfold convertConstraints. cbn [fst].
  set (base := match Mem cons with
               | Some mem => Add "mem" (FormatUint mem) _
               | None => _
               end).
  assert (forall key, base !! key
            = if decide (key = "arch") then (fun arch => [arch]) <$> Arch cons
              else if decide (key = "cpu_count")
                   then (fun cores => [FormatUint cores]) <$> CpuCores cons
              else if decide (key = "mem") then (fun mem => [FormatUint mem]) <$> Mem cons
              else None) as Hbase.
  { intros key. subst base.
    destruct (Arch cons), (CpuCores cons), (Mem cons); cbn [fmap option_fmap option_map];
      rewrite ?lookup_Add, ?lookup_empty; repeat case_decide; subst; try done. }
  assert (forall key, convertTagsToParams base (Tags cons) !! key
            = if decide (key = "tags" \/ key = "not_tags")
              then convertTagsToParams ∅ (Tags cons) !! key
              else base !! key) as Htags.
  { intros key. destruct (Tags cons) as [raw|].
    - rewrite !convertTagsToParams_addWhen, !lookup_addWhen, lookup_empty, !Hbase.
      repeat case_decide; try done; naive_solver.
    - cbn. rewrite lookup_empty, Hbase. repeat case_decide; try done; naive_solver. }
  split_and!.
  - rewrite Htags, Hbase. repeat case_decide; try done; naive_solver.
  - rewrite Htags, Hbase. repeat case_decide; try done; naive_solver.
  - rewrite Htags, Hbase. repeat case_decide; try done; naive_solver.
  - intros key values. rewrite Htags. case_decide as Hkey.
    + destruct (Tags cons) as [raw|]; [|cbn; by rewrite lookup_empty].
      rewrite convertTagsToParams_addWhen, !lookup_addWhen, lookup_empty.
      repeat case_decide; try done; intros [= <-]; try (by cbn).
      destruct_and?; simplify_eq.
    + rewrite Hbase. repeat case_decide; try done.
      * destruct (Arch cons); [|done]. by intros [= <-].
      * destruct (CpuCores cons); [|done]. by intros [= <-].
      * destruct (Mem cons); [|done]. by intros [= <-].
Qed.

(** *** The encoding of valid bindings *)

Section Encoder.
Context `{Quoting}.

Lemma loop_valid bindings : forall positives negatives namesSet,
  Forall valid bindings -> NoDup (Name <$> bindings) ->
  (forall b, b ∈ bindings -> Name b ∉ namesSet) ->
  addInterfaces_loop bindings positives negatives namesSet
  = inr (positives ++ (encodeIncluded <$> included bindings),
         negatives ++ (encodeExcluded <$> excluded bindings)).
Proof.
  induction bindings as [|b bindings IH]; intros ps ns S Hv Hnd Hnot.
  - cbn. by rewrite !app_nil_r.
  - apply Forall_cons in Hv as [[Hname Hspace] Hv].
    rewrite fmap_cons in Hnd. apply NoDup_cons in Hnd as [Hfresh Hnd].
    assert (Name b ∉ S) as HbS by (apply Hnot; left).
    assert (forall b', b' ∈ bindings -> Name b' ∉ {[Name b]} ∪ S) as Hnot'.
    { intros b' Hb'. apply not_elem_of_union. split.
      - intros Heq%elem_of_singleton. apply Hfresh. rewrite <- Heq.
        apply list_elem_of_fmap. eauto.
      - apply Hnot. by right. }
    cbn [addInterfaces_loop]. rewrite !decide_False by done.
    unfold included, excluded.
    destruct (IsExcluded b) eqn:Hex.
    + rewrite IH by done.
      rewrite (filter_cons_False (fun b => IsExcluded b = false)) by (by rewrite Hex).
      rewrite (filter_cons_True (fun b => IsExcluded b = true)) by done.
      cbn [fmap list_fmap]. by rewrite <- app_assoc.
    + rewrite IH by done.
      rewrite (filter_cons_True (fun b => IsExcluded b = false)) by done.
      rewrite (filter_cons_False (fun b => IsExcluded b = true)) by (by rewrite Hex).
      cbn [fmap list_fmap]. by rewrite <- app_assoc.
Qed.

Lemma addInterfaces_valid params bindings :
  Forall valid bindings -> NoDup (Name <$> bindings) ->
  addInterfaces params bindings
  = (addWhen (encodeExcluded <$> excluded bindings) "not_networks" ","
       (addWhen (encodeIncluded <$> included bindings) "interfaces" ";" params),
     None).
Proof.
  intros Hv Hnd. unfold addInterfaces. case_decide as Hlen.
  - by destruct bindings.
  - rewrite loop_valid by (done || set_solver). cbn [app].
    destruct (encodeIncluded <$> included bindings),
      (encodeExcluded <$> excluded bindings); done.
Qed.

(** X4.  For bindings that all have a name and a space identifier and
    whose names differ, [addInterfaces] succeeds: it adds under
    [interfaces] the texts [name:space=id] of the bindings that are not
    excluded, in their order and joined by semicolons, under
    [not_networks] the texts [space:id] of the excluded ones, joined by
    commas, each after the values the key already has and only when there
    is such a binding, and leaves every other key alone. *)
Theorem addInterfaces_encoding (params : Values) (bindings : list interfaceBinding) :
  Forall valid bindings -> NoDup (Name <$> bindings) ->
  (addInterfaces params bindings).2 = None
  /\ forall key,
      (addInterfaces params bindings).1 !! key
      = if decide (key = "interfaces" /\ included bindings <> [])
        then Some (default [] (params !! key)
                   ++ [Join (encodeIncluded <$> included bindings) ";"])
        else if decide (key = "not_networks" /\ excluded bindings <> [])
        then Some (default [] (params !! key)
                   ++ [Join (encodeExcluded <$> excluded bindings) ","])
        else params !! key.
Proof.
  intros Hv Hnd. rewrite addInterfaces_valid by done. split; [done|].
  intros key. cbn [fst]. rewrite !lookup_addWhen.
  assert (forall (l : list interfaceBinding) (f : interfaceBinding -> string),
            f <$> l <> [] <-> l <> []) as Hmap.
  { intros l f. by destruct l. }
  repeat case_decide; try done; destruct_and?; simplify_eq;
    try (exfalso; naive_solver).
Qed.

End Encoder.

(** *** From spaces to parameters *)

Lemma filter_imap_all {A B} (P : B -> Prop) `{forall x, Decision (P x)}
    (l : list A) : forall (f : nat -> A -> B),
  (forall i x, P (f i x)) -> filter P (imap f l) = imap f l.
Proof.
  induction l as [|x l IH]; intros f Hall; [done|].
  cbn [imap]. rewrite filter_cons_True by done. f_equal. apply IH.
  intros i y. apply Hall.
Qed.

Lemma filter_imap_none {A B} (P : B -> Prop) `{forall x, Decision (P x)}
    (l : list A) : forall (f : nat -> A -> B),
  (forall i x, ~ P (f i x)) -> filter P (imap f l) = [].
Proof.
  induction l as [|x l IH]; intros f Hnone; [done|].
  cbn [imap]. rewrite filter_cons_False by done. apply IH.
  intros i y. apply Hnone.
Qed.

Lemma included_of_spaces spaces :
  included (convertSpacesToBindings (Some spaces))
  = imap (binding false 0) (filter positive spaces).
Proof.
  rewrite convertSpacesToBindings_imap. unfold included.
  rewrite filter_app, filter_imap_all, filter_imap_none by done.
  by rewrite app_nil_r.
Qed.

Lemma excluded_of_spaces spaces :
  excluded (convertSpacesToBindings (Some spaces))
  = imap (binding true (length (filter positive spaces)))
      (strip <$> filter negative spaces).
Proof.
  rewrite convertSpacesToBindings_imap. unfold excluded.
  rewrite filter_app, filter_imap_none by done.
  by rewrite filter_imap_all by done.
Qed.

Lemma bindings_of_spaces_lookup spaces i b :
  N.of_nat (length spaces) < 2 ^ 63 ->
  convertSpacesToBindings (Some spaces) !! i = Some b ->
  Name b = FormatUint (N.of_nat i) /\ SpaceProviderId b <> "".
Proof.
  intros Hlen. rewrite convertSpacesToBindings_imap.
  pose proof (result_length_le spaces) as Hle.
  destruct (decide (i < length (filter positive spaces))%nat) as [Hi|Hi].
  - rewrite lookup_app_l by (by rewrite length_imap).
    rewrite list_lookup_imap. intros [space [Hspace ->]]%fmap_Some.
    rewrite binding_name_small by (simpl; lia). split; [done|].
    apply list_elem_of_lookup_2, list_elem_of_filter in Hspace as [Hpos _].
    cbn. by destruct Hpos as [[? _] _].
  - rewrite lookup_app_r by (rewrite length_imap; lia).
    rewrite length_imap, list_lookup_imap.
    intros [space [Hl ->]]%fmap_Some.
    pose proof (lookup_lt_Some _ _ _ Hl) as Hlt.
    rewrite binding_name_small by lia. split; [do 2 f_equal; lia|].
    apply list_elem_of_lookup_2, list_elem_of_fmap in Hl as (v & -> & Hv).
    apply list_elem_of_filter in Hv as [Hneg _].
    apply negative_shape in Hneg as (rest & -> & Hrest). cbn.
    by rewrite strip_marker.
Qed.

Lemma bindings_of_spaces_valid spaces :
  N.of_nat (length spaces) < 2 ^ 63 ->
  Forall valid (convertSpacesToBindings (Some spaces))
  /\ NoDup (Name <$> convertSpacesToBindings (Some spaces)).
Proof.
  intros Hlen. split.
  - apply Forall_lookup. intros i b Hb.
    destruct (bindings_of_spaces_lookup spaces i b Hlen Hb) as [Hname Hspace].
    split; [|done]. rewrite Hname. apply FormatUint_nonempty.
  - assert (Name <$> convertSpacesToBindings (Some spaces)
            = (fun i : nat => FormatUint (N.of_nat i))
                <$> seq 0 (length (convertSpacesToBindings (Some spaces)))) as ->.
    { apply list_eq. intros i. rewrite !list_lookup_fmap.
      destruct (convertSpacesToBindings (Some spaces) !! i) as [b|] eqn:Hb.
      - rewrite (lookup_seq_lt 0) by (by eapply lookup_lt_Some). cbn.
        by destruct (bindings_of_spaces_lookup spaces i b Hlen Hb) as [-> _].
      - rewrite lookup_seq_ge; [done|]. by apply lookup_ge_None. }
    apply NoDup_fmap_2; [|apply NoDup_seq].
    intros i j Heq. unfold FormatUint in Heq. apply (inj pretty) in Heq. lia.
Qed.

(** X5.  The bindings that [convertSpacesToBindings] makes of a list of
    spaces are always accepted by [addInterfaces]: the positive spaces come
    out under [interfaces] as [i:space=name] with their positions [i] from
    zero, the negative ones under [not_networks] as [space:name]. *)
Theorem spaces_always_encode `{Quoting} (params : Values) (spaces : list string) :
  N.of_nat (length spaces) < 2 ^ 63 ->
  let bindings := convertSpacesToBindings (Some spaces) in
  let positives := (parseDelimitedValues spaces).1 in
  let negatives := (parseDelimitedValues spaces).2 in
  addInterfaces params bindings
  = (addWhen ((fun space => "space:" +:+ space) <$> negatives) "not_networks" ","
       (addWhen (imap (fun i space => FormatUint (N.of_nat i) +:+ ":space=" +:+ space)
                   positives) "interfaces" ";" params),
     None).
Proof.
  intros Hlen. cbn zeta.
  destruct (bindings_of_spaces_valid spaces Hlen) as [Hv Hnd].
  rewrite addInterfaces_valid by done.
  rewrite included_of_spaces, excluded_of_spaces, parseDelimitedValues_filter.
  cbn [fst snd]. pose proof (result_length_le spaces) as Hle.
  do 3 f_equal.
  - rewrite fmap_imap.
    etrans; [|apply (imap_const (fun space => "space:" +:+ space))].
    apply imap_ext. intros i space _. done.
  - rewrite fmap_imap. apply imap_ext. intros i space Hspace%lookup_lt_Some.
    unfold encodeIncluded. cbn. rewrite N.mod_small by lia. done.
Qed.

(** X5 for the list [public, ^db, dmz]. *)
Lemma spaces_always_encode_witness :
  N.of_nat (length ["public"; "^db"; "dmz"]) < 2 ^ 63
  /\ addInterfaces (H := plainQuote) ∅ (convertSpacesToBindings (Some ["public"; "^db"; "dmz"]))
     = (<["not_networks" := ["space:db"]]>
          (<["interfaces" := ["0:space=public;1:space=dmz"]]> ∅), None).
Proof.
  split; [done|].
  rewrite (spaces_always_encode (H := plainQuote) ∅ ["public"; "^db"; "dmz"]) by done.
  by vm_compute.
Defined.

(** X4 for two interfaces and one excluded space. *)
Lemma addInterfaces_encoding_witness :
  let bindings :=
    [ {| Name := "eth0"; SpaceProviderId := "dmz"; IsExcluded := false |};
      {| Name := "db"; SpaceProviderId := "storage"; IsExcluded := true |};
      {| Name := "eth1"; SpaceProviderId := "apps"; IsExcluded := false |} ] in
  Forall valid bindings /\ NoDup (Name <$> bindings)
  /\ (addInterfaces (H := plainQuote) ∅ bindings).1 !! "interfaces"
     = Some ["eth0:space=dmz;eth1:space=apps"].
Proof.
  intros bindings.
  assert (Forall valid bindings) as Hv by (repeat constructor; done).
  assert (NoDup (Name <$> bindings)) as Hnd by (cbn; repeat constructor; set_solver).
  split_and!; [done|done|].
  destruct (addInterfaces_encoding (H := plainQuote) ∅ bindings Hv Hnd) as [_ Hkey].
  rewrite Hkey. by vm_compute.
Defined.

(** *** Volumes *)

Lemma volParms_map volumes : forall acc,
  fold_left (fun volParms v => volParms ++ [makeVolumeParams v]) volumes acc
  = acc ++ (makeVolumeParams <$> volumes).
Proof.
  induction volumes as [|v volumes IH]; intros acc; cbn.
  - by rewrite app_nil_r.
  - by rewrite IH, <- app_assoc.
Qed.

Lemma append_nonempty_r (a b : string) : b <> "" -> a +:+ b <> "".
Proof.
  intros Hb. destruct a as [|c a]; [done|].
  change (String c a +:+ b) with (String c (a +:+ b)). done.
Qed.

Lemma append_nonempty_l (a b : string) : a <> "" -> a +:+ b <> "".
Proof. intros Ha. by destruct a. Qed.

(** X6.  [addStorage] does nothing without volumes; with volumes it adds
    one value under [storage], after the values the key already has: the
    encodings of the volumes in their order, joined by commas, none of
    them empty; every other key is left alone.  The volumes of the comment
    in the source give [root:0(ssd),data:20(magnetic,5400rpm),45]. *)
Theorem addStorage_one_value (params : Values) (volumes : list volumeInfo) :
  (volumes = [] -> addStorage params volumes = params)
  /\ (volumes <> [] ->
      forall key,
        addStorage params volumes !! key
        = if decide (key = "storage")
          then Some (default [] (params !! key)
                     ++ [Join (makeVolumeParams <$> volumes) ","])
          else params !! key)
  /\ (forall v, makeVolumeParams v <> "")
  /\ Join (makeVolumeParams
             <$> [ {| name := "root"; sizeInGB := 0; tags := ["ssd"] |};
                   {| name := "data"; sizeInGB := 20; tags := ["magnetic"; "5400rpm"] |};
                   {| name := ""; sizeInGB := 45; tags := [] |} ]) ","
     = "root:0(ssd),data:20(magnetic,5400rpm),45".
Proof.
  split_and!.
  - by intros ->.
  - intros Hne key. unfold addStorage.
    rewrite decide_False by (by destruct volumes).
    rewrite volParms_map. cbn [app]. by rewrite lookup_Add.
  - intros v. unfold makeVolumeParams.
    pose proof (FormatUint_nonempty (sizeInGB v)) as Hsize.
    assert (forall prefix, prefix +:+ FormatUint (sizeInGB v) <> "") as Hsized
      by (intros prefix; by apply append_nonempty_r).
    repeat case_decide;
      first [apply Hsized | apply append_nonempty_l; apply Hsized].
  - by vm_compute.
Qed.

(** *** Nothing is taken away *)

Lemma extendedBy_refl (params : Values) : extendedBy params params.
Proof. intros key values Hk. exists []. by rewrite app_nil_r. Qed.

Lemma extendedBy_trans (p1 p2 p3 : Values) :
  extendedBy p1 p2 -> extendedBy p2 p3 -> extendedBy p1 p3.
Proof.
  intros H12 H23 key values Hk.
  destruct (H12 key values Hk) as [more Hk2].
  destruct (H23 key _ Hk2) as [more' Hk3].
  exists (more ++ more'). by rewrite app_assoc.
Qed.

Lemma extendedBy_Add key value (params : Values) : extendedBy params (Add key value params).
Proof.
  intros k values Hk. rewrite lookup_Add. case_decide; subst.
  - rewrite Hk. eauto.
  - exists []. by rewrite app_nil_r.
Qed.

Lemma extendedBy_addWhen elems key sep (params : Values) :
  extendedBy params (addWhen elems key sep params).
Proof. destruct elems; [apply extendedBy_refl|apply extendedBy_Add]. Qed.

(** X7.  The three encoders only add to the parameters they are given:
    every value that a key has before it still has after, in the same
    place, whether the encoder fails or not, and no key appears but
    [tags] and [not_tags], [interfaces] and [not_networks], [storage]. *)
Theorem encoders_only_add `{Quoting} (params : Values) :
  (forall tags,
     extendedBy params (convertTagsToParams params tags)
     /\ dom (convertTagsToParams params tags) ⊆ dom params ∪ {["tags"; "not_tags"]})
  /\ (forall bindings,
        extendedBy params (addInterfaces params bindings).1
        /\ dom (addInterfaces params bindings).1
           ⊆ dom params ∪ {["interfaces"; "not_networks"]})
  /\ (forall volumes,
        extendedBy params (addStorage params volumes)
        /\ dom (addStorage params volumes) ⊆ dom params ∪ {["storage"]}).
Proof.
  split_and!.
  - intros [raw|]; [|split; [apply extendedBy_refl|set_solver]].
    rewrite convertTagsToParams_addWhen. split.
    + eapply extendedBy_trans; apply extendedBy_addWhen.
    + etrans; [apply dom_addWhen|].
      pose proof (dom_addWhen (filter positive raw) "tags" "," params). set_solver.
  - intros bindings. unfold addInterfaces.
    case_decide; [split; [apply extendedBy_refl|set_solver]|].
    destruct (addInterfaces_loop bindings [] [] ∅) as [err|[positives negatives]];
      [split; [apply extendedBy_refl|set_solver]|].
    cbn [fst]. split.
    + repeat case_decide;
        repeat first [apply extendedBy_refl | apply extendedBy_Add
                     | eapply extendedBy_trans; [apply extendedBy_Add|]].
    + repeat case_decide; rewrite ?dom_Add; set_solver.
  - intros volumes. unfold addStorage.
    case_decide; [split; [apply extendedBy_refl|set_solver]|].
    split; [apply extendedBy_Add|]. rewrite dom_Add. set_solver.
Qed.

End MaasMore.

(** ** Properties of the commands *)

Module CommandsFacts.
Import Go Errors Commands MoreNotions.

(** *** [retry-provisioning] *)

Section RetryProvisioning.
Context `{Quoting}.
Variable IsValidMachine : string -> bool.
Variable MachineTagString : string -> string.

Lemma Init_loop_valid args : forall filled,
  Forall (fun arg => IsValidMachine arg = true) args ->
  Init_loop IsValidMachine MachineTagString (length filled) args
    (filled ++ replicate (length args) "")
  = (filled ++ (MachineTagString <$> args), None).
Proof.
  induction args as [|arg args IH]; intros filled Hvalid.
  - cbn. by rewrite app_nil_r.
  - apply Forall_cons in Hvalid as [Harg Hvalid].
    cbn [Init_loop length replicate]. rewrite Harg. cbn [negb].
    rewrite insert_app_r_alt by done. rewrite Nat.sub_diag. cbn [list_insert].
    specialize (IH (filled ++ [MachineTagString arg]) Hvalid).
    rewrite length_app in IH. cbn [length] in IH.
    rewrite Nat.add_1_r, <- !app_assoc in IH. exact IH.
Qed.

Lemma Init_loop_invalid pre bad post : forall filled,
  Forall (fun arg => IsValidMachine arg = true) pre ->
  IsValidMachine bad = false ->
  Init_loop IsValidMachine MachineTagString (length filled) (pre ++ bad :: post)
    (filled ++ replicate (length (pre ++ bad :: post)) "")
  = (filled ++ (MachineTagString <$> pre) ++ replicate (S (length post)) "",
     Some (New ("invalid machine " +:+ Quote bad))).
Proof.
  induction pre as [|arg pre IH]; intros filled Hvalid Hbad.
  - cbn [app Init_loop]. rewrite Hbad. done.
  - apply Forall_cons in Hvalid as [Harg Hvalid].
    cbn [app Init_loop length replicate]. rewrite Harg. cbn [negb].
    rewrite insert_app_r_alt by done. rewrite Nat.sub_diag. cbn [list_insert].
    specialize (IH (filled ++ [MachineTagString arg]) Hvalid Hbad).
    rewrite length_app in IH. cbn [length] in IH.
    rewrite Nat.add_1_r, <- !app_assoc in IH. exact IH.
Qed.

(** X16.  [Init] of [retry-provisioning]: without arguments it fails and
    leaves the command as it is; when every argument is a valid machine it
    succeeds and [Machines] holds the tag of each argument, in order; at the
    first argument that is not a valid machine it fails naming it, and
    [Machines] is left with the tags of the arguments before it followed by
    an empty text for it and for each argument after it. *)
Theorem RetryInit_outcomes (c : RetryProvisioningCommand) (args : list string) :
  (args = [] ->
   RetryInit IsValidMachine MachineTagString c args
   = (c, Some (New "no machine specified")))
  /\ (args <> [] -> Forall (fun arg => IsValidMachine arg = true) args ->
      RetryInit IsValidMachine MachineTagString c args
      = ({| Machines := MachineTagString <$> args |}, None))
  /\ (forall pre bad post,
        args = pre ++ bad :: post ->
        Forall (fun arg => IsValidMachine arg = true) pre ->
        IsValidMachine bad = false ->
        RetryInit IsValidMachine MachineTagString c args
        = ({| Machines := (MachineTagString <$> pre) ++ replicate (S (length post)) "" |},
           Some (New ("invalid machine " +:+ Quote bad)))).
Proof.
  split_and!.
  - by intros ->.
  - intros Hne Hvalid. unfold RetryInit.
    rewrite decide_False by (by destruct args).
    pose proof (Init_loop_valid args [] Hvalid) as Hloop.
    cbn [length app] in Hloop. by rewrite Hloop.
  - intros pre bad post -> Hvalid Hbad. unfold RetryInit.
    rewrite decide_False by (by destruct pre).
    pose proof (Init_loop_invalid pre bad post [] Hvalid Hbad) as Hloop.
    cbn [length app] in Hloop. cbn [length app]. by rewrite Hloop.
Qed.

End RetryProvisioning.

(** X16 for three arguments of which the second is not a machine, with the
    machines being the texts that begin with a digit. *)
Lemma RetryInit_outcomes_witness :
  let isMachine arg :=
    match arg with
    | String c _ => (48 <=? N_of_ascii c) && (N_of_ascii c <=? 57)
    | EmptyString => false
    end in
  let tag arg := "machine-" +:+ arg in
  Forall (fun arg => isMachine arg = true) ["0"]
  /\ isMachine "x" = false
  /\ RetryInit (H := plainQuote) isMachine tag {| Machines := [] |} ["0"; "x"; "2"]
     = ({| Machines := ["machine-0"; ""; ""] |},
        Some (New ("invalid machine " +:+ plainQuote "x"))).
Proof.
  intros isMachine tag.
  assert (Forall (fun arg => isMachine arg = true) ["0"]) as Hvalid
    by (by repeat constructor).
  split_and!; [done|done|].
  by apply (proj2 (proj2 (RetryInit_outcomes (H := plainQuote) isMachine tag
                            {| Machines := [] |} ["0"; "x"; "2"]))
              ["0"] "x" ["2"]).
Defined.

Section RetryRun.
Context `{Quoting}.
Variable MachineTag : Type.
Variable ParseMachineTag : string -> MachineTag * option error.
Variable NewAPIClient : option error.
Variable RetryProvisioning : list MachineTag -> list ErrorResult * option error.

Lemma report_lines (c : RetryProvisioningCommand) results : forall i lines,
  (i + length results <= length (Machines c))%nat ->
  report c i results lines
  = (Done tt,
     lines ++ omap (fun '(machine, r) => complaint machine r)
                (zip (drop i (Machines c)) results)).
Proof.
  induction results as [|r results IH]; intros i lines Hlen.
  - cbn. rewrite zip_with_nil_r. cbn. by rewrite app_nil_r.
  - cbn [length] in Hlen.
    destruct (Machines c !! i) as [machine|] eqn:Hi.
    2:{ apply lookup_ge_None in Hi. lia. }
    rewrite (drop_S _ _ _ Hi). cbn [zip_with omap list_omap report].
    unfold complaint at 1. destruct (Error r) as [text|]; cbn [fmap option_fmap option_map].
    + rewrite Hi, IH by lia. by rewrite <- app_assoc.
    + by rewrite IH by lia.
Qed.

(** X17.  When the client answers with a result for each machine, [Run]
    returns nil whether or not results carry errors: it makes one request,
    writes one line on the standard error for each machine whose result
    has an error, in order, and then closes the client. *)
Theorem RetryRun_reports (c : RetryProvisioningCommand) machines results :
  NewAPIClient = None ->
  parseTags MachineTag ParseMachineTag (Machines c) [] = (machines, None) ->
  RetryProvisioning machines = (results, None) ->
  (length results <= length (Machines c))%nat ->
  RetryRun MachineTag ParseMachineTag NewAPIClient RetryProvisioning c
  = (Done None,
     Requested machines
       :: (Stderr <$> omap (fun '(machine, r) => complaint machine r)
                        (zip (Machines c) results))
       ++ [Closed]).
Proof.
  intros Hclient Hparse Hanswer Hlen. unfold RetryRun.
  rewrite Hclient, Hparse, Hanswer.
  rewrite (report_lines c results 0 []) by done. by rewrite drop_0.
Qed.

Lemma parseTags_bad tags : forall machines tag err,
  tag ∈ tags -> (ParseMachineTag tag).2 = Some err ->
  exists machines' err',
    parseTags MachineTag ParseMachineTag tags machines = (machines', Some (Trace err')).
Proof.
  induction tags as [|t tags IH]; intros machines tag err Hin Hbad.
  - by apply elem_of_nil in Hin.
  - cbn [parseTags]. destruct (ParseMachineTag t) as [machine [terr|]] eqn:Ht; [eauto|].
    apply elem_of_cons in Hin as [->|Hin]; [by rewrite Ht in Hbad|].
    by apply (IH _ tag err).
Qed.

Lemma parseTags_good tags : forall machines,
  Forall (fun tag => (ParseMachineTag tag).2 = None) tags ->
  parseTags MachineTag ParseMachineTag tags machines
  = (machines ++ ((fun tag => (ParseMachineTag tag).1) <$> tags), None).
Proof.
  induction tags as [|t tags IH]; intros machines Hgood.
  - cbn. by rewrite app_nil_r.
  - apply Forall_cons in Hgood as [Ht Hgood]. cbn [parseTags].
    destruct (ParseMachineTag t) as [machine terr] eqn:Hparsed. cbn in Ht. subst terr.
    rewrite IH by done. rewrite fmap_cons, Hparsed. by rewrite <- app_assoc.
Qed.

Lemma report_overrun (c : RetryProvisioningCommand) results : forall i k lines r text,
  results !! k = Some r -> Error r = Some text ->
  (length (Machines c) <= i + k)%nat ->
  exists lines', report c i results lines = (Panicked "index out of range", lines').
Proof.
  induction results as [|r0 results IH]; intros i k lines r text Hk Hr Hlen; [done|].
  cbn [report].
  destruct (Error r0) as [text0|] eqn:Hr0.
  - destruct (Machines c !! i) as [machine|] eqn:Hi; [|eauto].
    destruct k as [|k].
    { apply lookup_lt_Some in Hi. lia. }
    apply (IH (S i) k _ r text); [done|done|lia].
  - destruct k as [|k]; [cbn in Hk; congruence|].
    apply (IH (S i) k _ r text); [done|done|lia].
Qed.

(** X18.  With a client, when a tag of [Machines] does not parse, [Run]
    returns the traced error without making a request, and closes the
    client; and when a result with an error stands at a position beyond the
    machines, [Run] panics on [c.Machines[i]], after the request and before
    the deferred closing. *)
Theorem RetryRun_edges (c : RetryProvisioningCommand) :
  NewAPIClient = None ->
  (forall tag err,
     tag ∈ Machines c -> (ParseMachineTag tag).2 = Some err ->
     exists err',
       RetryRun MachineTag ParseMachineTag NewAPIClient RetryProvisioning c
       = (Done (Some (Trace err')), [Closed]))
  /\ (forall machines results k r text,
        parseTags MachineTag ParseMachineTag (Machines c) [] = (machines, None) ->
        RetryProvisioning machines = (results, None) ->
        results !! k = Some r -> Error r = Some text ->
        (length (Machines c) <= k)%nat ->
        exists lines,
          RetryRun MachineTag ParseMachineTag NewAPIClient RetryProvisioning c
          = (Panicked "index out of range",
             Requested machines :: (Stderr <$> lines) ++ [Closed])).
Proof.
  intros Hclient. unfold RetryRun. rewrite Hclient. split.
  - intros tag err Hin Hbad.
    destruct (parseTags_bad _ [] tag err Hin Hbad) as (machines' & err' & ->). eauto.
  - intros machines results k r text -> -> Hk Hr Hlen.
    destruct (report_overrun c results 0 k [] r text Hk Hr Hlen) as [lines ->]. eauto.
Qed.

End RetryRun.

(** X17 for two machines of which the second could not be retried. *)
Lemma RetryRun_reports_witness :
  let parse (tag : string) : string * option error := (tag, None) in
  let answer (machines : list string) : list ErrorResult * option error :=
    ([ {| Error := None |}; {| Error := Some "machine 1 is not in an error state" |} ], None) in
  let c := {| Machines := ["machine-0"; "machine-1"] |} in
  RetryRun (H := plainQuote) string parse None answer c
  = (Done None,
     [ Requested ["machine-0"; "machine-1"];
       Stderr ("cannot retry provisioning " +:+ plainQuote "machine-1"
               +:+ ": machine 1 is not in an error state" +:+ String "010" "");
       Closed ]).
Proof.
  intros parse answer c.
  by rewrite (RetryRun_reports (H := plainQuote) string parse None answer c
                ["machine-0"; "machine-1"]
                [ {| Error := None |}; {| Error := Some "machine 1 is not in an error state" |} ]
                eq_refl eq_refl eq_refl ltac:(done)).
Defined.

(** X18 for a second tag that does not parse. *)
Lemma RetryRun_edges_witness :
  let parse (tag : string) : string * option error :=
    if decide (tag = "machine-x") then ("", Some (Other "not a valid machine tag"))
    else (tag, None) in
  let answer (machines : list string) : list ErrorResult * option error := ([], None) in
  let c := {| Machines := ["machine-0"; "machine-x"] |} in
  exists err,
    RetryRun (H := plainQuote) string parse None answer c
    = (Done (Some (Trace err)), [Closed]).
Proof.
  intros parse answer c.
  by apply (proj1 (RetryRun_edges (H := plainQuote) string parse None answer c eq_refl)
              "machine-x" (Other "not a valid machine tag")); [set_solver|].
Defined.

Section InitThenRun.
Context `{Quoting}.
Variable IsValidMachine : string -> bool.
Variable MachineTagString : string -> string.
Variable MachineTag : Type.
Variable ParseMachineTag : string -> MachineTag * option error.
Variable NewAPIClient : option error.
Variable RetryProvisioning : list MachineTag -> list ErrorResult * option error.

(** X19.  When the tag written for a valid machine always parses, a [Run]
    after a successful [Init] with a client makes exactly one request, for
    the machines of all the arguments in their order, and closes the
    client last. *)
Theorem RetryInit_then_Run (c : RetryProvisioningCommand) (args : list string) :
  (forall arg, IsValidMachine arg = true ->
               (ParseMachineTag (MachineTagString arg)).2 = None) ->
  NewAPIClient = None ->
  args <> [] -> Forall (fun arg => IsValidMachine arg = true) args ->
  (RetryInit IsValidMachine MachineTagString c args).2 = None
  /\ exists r lines,
      RetryRun MachineTag ParseMachineTag NewAPIClient RetryProvisioning
        (RetryInit IsValidMachine MachineTagString c args).1
      = (r, Requested ((fun arg => (ParseMachineTag (MachineTagString arg)).1) <$> args)
              :: (Stderr <$> lines) ++ [Closed]).
Proof.
  intros Hround Hclient Hne Hvalid. unfold RetryInit.
  rewrite decide_False by (by destruct args).
  pose proof (Init_loop_valid IsValidMachine MachineTagString args [] Hvalid) as Hloop.
  cbn [length app] in Hloop. rewrite Hloop. cbn [fst snd]. split; [done|].
  unfold RetryRun. rewrite Hclient. cbn [Machines].
  rewrite parseTags_good.
  2:{ apply Forall_fmap. eapply Forall_impl; [exact Hvalid|]. intros arg Harg. by apply Hround. }
  cbn [app]. rewrite <- list_fmap_compose.
  destruct (RetryProvisioning _) as [results [err|]].
  - exists (Done (Some err)), []. done.
  - destruct (report _ 0 results []) as [[[]|msg] lines]; eauto.
Qed.

End InitThenRun.

(** X19 for two machines and a client that reports no error. *)
Lemma RetryInit_then_Run_witness :
  let isMachine (arg : string) := bool_decide (arg <> "") in
  let tag arg := "machine-" +:+ arg in
  let parse (t : string) : string * option error := (t, None) in
  let answer (machines : list string) : list ErrorResult * option error :=
    ((fun _ => {| Error := None |}) <$> machines, None) in
  Forall (fun arg => isMachine arg = true) ["0"; "1"]
  /\ exists r lines,
      RetryRun (H := plainQuote) string parse None answer
        (RetryInit (H := plainQuote) isMachine tag {| Machines := [] |} ["0"; "1"]).1
      = (r, Requested ["machine-0"; "machine-1"] :: (Stderr <$> lines) ++ [Closed]).
Proof.
  intros isMachine tag parse answer.
  assert (Forall (fun arg => isMachine arg = true) ["0"; "1"]) as Hvalid
    by (by repeat constructor).
  split; [done|].
  by apply (proj2 (RetryInit_then_Run (H := plainQuote) isMachine tag string parse None answer
                     {| Machines := [] |} ["0"; "1"]
                     ltac:(done) eq_refl ltac:(done) Hvalid)).
Defined.

(** *** [login] *)

Section Login.
Context `{QuotingAll}.
Variable APIOpenFunc : Type.
Variable GetUserManagerFunc : Type.
Variable apiOpen : APIOpenFunc.
Variable getUserManager : GetUserManagerFunc.

(** X20.  [Init] of [login] succeeds exactly when there is one argument.
    The name becomes the first argument whenever there is one, also when
    the arguments left over make it fail, and stays as it was without
    arguments; a function field that is nil gets the default and one that
    is set is kept, in every case; the server path and the new-password
    flag are not touched. *)
Theorem LoginInit_outcomes (c : LoginCommand APIOpenFunc GetUserManagerFunc)
    (args : list string) :
  let after := LoginInit _ _ apiOpen getUserManager c args in
  (after.2 = None <-> length args = 1%nat)
  /\ (args = [] -> after.2 = Some (New "no name specified")
                   /\ Name _ _ after.1 = Name _ _ c)
  /\ (forall arg rest, args = arg :: rest -> Name _ _ after.1 = arg)
  /\ cmd_apiOpen _ _ after.1 = Some (default apiOpen (cmd_apiOpen _ _ c))
  /\ cmd_getUserManager _ _ after.1
     = Some (default getUserManager (cmd_getUserManager _ _ c))
  /\ ServerPath _ _ after.1 = ServerPath _ _ c
  /\ NewPassword _ _ after.1 = NewPassword _ _ c.
Proof.
  unfold LoginInit, CheckEmpty.
  destruct c as [open manager path name flag].
  destruct open, manager, args as [|arg [|arg' rest]]; cbn;
    split_and!; try done; try (intros ? ? [= <- <-]; done);
    split; done.
Qed.

End Login.

(** *** [updatePassword] *)

(** X21.  When a password is drawn, a user manager is found and the
    credentials can be written, [updatePassword] returns nil, says that
    the password is updated and holds the new password, whatever
    [SetPassword] has returned: its error is dropped. *)
Theorem updatePassword_drops_SetPassword_error
    (password userName : string) (userManager : UserManager)
    (Write : APICredentials -> option error) (st : session) :
  Write {| User := User (held st); Password := password |} = None ->
  updatePassword (password, None) (Some userManager, None) userName Write st
  = (Done None,
     {| held := {| User := User (held st); Password := password |};
        printed := printed st ++ ["password updated" +:+ String "010" ""] |}).
Proof.
  intros Hwrite. unfold updatePassword. cbn. by rewrite Hwrite.
Qed.

(** X21 for a server that refuses every password. *)
Lemma updatePassword_drops_SetPassword_error_witness :
  let refusing := {| SetPassword := fun _ _ => Some (Other "permission denied") |} in
  let st := {| held := {| User := "bob"; Password := "old" |}; printed := [] |} in
  SetPassword refusing "bob" "fresh" = Some (Other "permission denied")
  /\ updatePassword ("fresh", None) (Some refusing, None) "bob" (fun _ => None) st
     = (Done None,
        {| held := {| User := "bob"; Password := "fresh" |};
           printed := ["password updated" +:+ String "010" ""] |}).
Proof.
  intros refusing st. split; [done|].
  by apply (updatePassword_drops_SetPassword_error "fresh" "bob" refusing (fun _ => None) st).
Defined.

End CommandsFacts.
